(** * features.py: word-presence feature extraction for author classification

    A shallow embedding of [src/features.py].  Python [str] values are
    modelled as [string] (a text is a sequence of code points below 256),
    Python [int]s as [Z], a [set] as a [gset], a [dict] as an association
    list in insertion order, a numpy [uint8] vector as a [list Z] of bytes
    (what a store of a value outside [0, 255] does depends on the version of
    numpy, see [Np.setitem]), and an [IndexError] as [None]. *)

From Stdlib Require Import Ascii ZArith Lia Reals.
From stdpp Require Import gmap strings list sorting pretty.

Local Open Scope Z_scope.

(** ** Characters *)

Module Char.

Definition code (c : ascii) : N := N_of_ascii c.

(** [str.isspace] on the code points below 256. *)
Definition isspace (c : ascii) : bool :=
  let n := code c in
  ((9 <=? n) && (n <=? 13) || (28 <=? n) && (n <=? 32)
   || (n =? 133) || (n =? 160))%N.

(** The character class [[a-zA-Z]]. *)
Definition isalpha (c : ascii) : bool :=
  let n := code c in
  ((65 <=? n) && (n <=? 90) || (97 <=? n) && (n <=? 122))%N.

Definition isupper (c : ascii) : bool :=
  let n := code c in
  ((65 <=? n) && (n <=? 90)
   || (192 <=? n) && (n <=? 222) && negb (n =? 215))%N.

(** [str.lower] on one code point below 256. *)
Definition lower (c : ascii) : ascii :=
  if isupper c then ascii_of_N (code c + 32) else c.

(** The line boundaries of [str.splitlines] below 256. *)
Definition islinebreak (c : ascii) : bool :=
  let n := code c in
  ((10 <=? n) && (n <=? 13) || (28 <=? n) && (n <=? 30) || (n =? 133))%N.

Definition CR : ascii := ascii_of_N 13.
Definition LF : ascii := ascii_of_N 10.

End Char.

(** ** String primitives of the Python runtime *)

Module Str.

Definition snoc (s : string) (c : ascii) : string := s +:+ String c "".

Definition nonempty (s : string) : bool :=
  match s with "" => false | _ => true end.

(** What a scanner emits when a token ends: nothing for an empty one. *)
Definition flush (tok : string) : list string :=
  if nonempty tok then [tok] else [].

(** [s.split()]: maximal runs of non-whitespace characters. *)
Fixpoint split_from (tok s : string) : list string :=
  match s with
  | "" => flush tok
  | String c s' =>
      if Char.isspace c then flush tok ++ split_from "" s'
      else split_from (snoc tok c) s'
  end.

Definition split (s : string) : list string := split_from "" s.

(** [s.lower()]. *)
Fixpoint lower (s : string) : string :=
  match s with
  | "" => ""
  | String c s' => String (Char.lower c) (lower s')
  end.

(** [re.compile('[^a-zA-Z]').sub('', s)]. *)
Fixpoint sub_nonalpha (s : string) : string :=
  match s with
  | "" => ""
  | String c s' =>
      if Char.isalpha c then String c (sub_nonalpha s') else sub_nonalpha s'
  end.

(** [sub in s] for two strings. *)
Fixpoint contains (sub s : string) : bool :=
  String.prefix sub s ||
  match s with
  | "" => false
  | String _ s' => contains sub s'
  end.

(** [s.splitlines()]; [after_cr] remembers that the previous character
    was a carriage return, so that the line feed of a CR LF pair does not
    end a second line. *)
Fixpoint splitlines_from (after_cr : bool) (cur s : string) : list string :=
  match s with
  | "" => flush cur
  | String c s' =>
      if after_cr && bool_decide (c = Char.LF)
      then splitlines_from false cur s'
      else if Char.islinebreak c
      then cur :: splitlines_from (bool_decide (c = Char.CR)) "" s'
      else splitlines_from false (snoc cur c) s'
  end.

Definition splitlines (s : string) : list string :=
  splitlines_from false "" s.

(** [os.path.basename] (POSIX): what follows the last slash. *)
Fixpoint basename_from (cur p : string) : string :=
  match p with
  | "" => cur
  | String c p' =>
      if bool_decide (c = "/"%char) then basename_from "" p'
      else basename_from (snoc cur c) p'
  end.

Definition basename (p : string) : string := basename_from "" p.

(** [s.replace(old, new)] for a non-empty [old]: occurrences are replaced
    from left to right without overlap; [skip] counts the characters of
    the occurrence being consumed. *)
Fixpoint replace_from (old new : string) (skip : nat) (s : string) : string :=
  match s with
  | "" => ""
  | String c s' =>
      match skip with
      | S k => replace_from old new k s'
      | O =>
          if String.prefix old s
          then new +:+ replace_from old new (String.length old - 1) s'
          else String c (replace_from old new O s')
      end
  end.

(** For an empty [old] Python inserts [new] before every character and
    at the end. *)
Fixpoint intersperse (new s : string) : string :=
  match s with
  | "" => new
  | String c s' => new +:+ String c (intersperse new s')
  end.

Definition replace (old new s : string) : string :=
  if nonempty old then replace_from old new O s else intersperse new s.

End Str.

(** ** [find_unique_words] *)

(** The loop body: the cleaned word is appended unless it has fewer than
    two characters. *)
Definition clean_step (clean_words : list string) (word : string) : list string :=
  let word := Str.sub_nonalpha word in
  if bool_decide (String.length word < 2)%nat then clean_words
  else clean_words ++ [Str.lower word].

Definition clean_words (words : list string) : list string :=
  foldl clean_step [] words.

(** [list(set(clean_words))]: the elements of the set, in the order the set
    happens to store them. *)
Definition find_unique_words (text : string) : list string :=
  elements (list_to_set (clean_words (Str.split text)) : gset string).

(** ** Control flow and containers of the Python runtime *)

(** A [for] loop whose body may raise: the state is threaded through the
    iterations and the first exception ends the loop. *)
Fixpoint for_ {A S : Type} (l : list A) (body : A → S → option S) (s : S)
  : option S :=
  match l with
  | [] => Some s
  | x :: l' => s' ← body x s; for_ l' body s'
  end.

(** [enumerate(l, start)]. *)
Fixpoint enumerate {A : Type} (start : Z) (l : list A) : list (Z * A) :=
  match l with
  | [] => []
  | x :: l' => (start, x) :: enumerate (start + 1) l'
  end.

(** A [dict] with string keys, as the list of its items in insertion
    order. *)
Abbreviation dict V := (list (string * V)).

Module Dict.

(** [d[k] = v]: an existing key keeps its position. *)
Fixpoint setitem {V : Type} (d : dict V) (k : string) (v : V) : dict V :=
  match d with
  | [] => [(k, v)]
  | (k', v') :: d' =>
      if decide (k' = k) then (k, v) :: d' else (k', v') :: setitem d' k v
  end.

Fixpoint get {V : Type} (d : dict V) (k : string) : option V :=
  match d with
  | [] => None
  | (k', v') :: d' => if decide (k' = k) then Some v' else get d' k
  end.

Definition keys {V : Type} (d : dict V) : list string := d.*1.
Definition values {V : Type} (d : dict V) : list V := d.*2.

End Dict.

(** [sorted] on a collection of strings: ascending code-point order. *)
Definition sorted (l : list string) : list string := merge_sort String.le l.

(** A numpy vector of [uint8]. *)
Module Np.

Definition zeros (n : nat) : list Z := replicate n 0.

Definition uint8 (x : Z) : Z := x mod 256.

(** [a[i] = x]: a negative index counts from the end, an index outside
    [-len, len) raises [IndexError], and the stored value is cast to an
    unsigned byte.  A value of [0, 255] is stored as it is.  Outside that
    range the cast depends on the version of numpy: before numpy 2 the value
    wraps around modulo 256, as here; from numpy 2 on the store of a Python
    [int] raises [OverflowError].  The properties of the vectorizer that
    state what a run returns are therefore stated for values of [0, 255],
    where the two agree. *)
Definition setitem (a : list Z) (i x : Z) : option (list Z) :=
  let n := Z.of_nat (length a) in
  if decide (0 ≤ i < n) then Some (<[Z.to_nat i := uint8 x]> a)
  else if decide (- n ≤ i < 0) then Some (<[Z.to_nat (n + i) := uint8 x]> a)
  else None.

End Np.

(** ** [create_dictionary] *)

(** The corpus directory as [glob] enumerates it: the path of every
    [.txt] file with the text [f.read()] returns for it. *)
Abbreviation corpus := (list (string * string)).

Definition create_dictionary (text_dir : corpus) : dict Z :=
  let dict_words :=
    foldl (λ dict_words txt, dict_words ++ find_unique_words txt.2) [] text_dir in
  let dict_words : gset string := list_to_set dict_words in
  foldl (λ d '(value, key), Dict.setitem d key value) []
        (enumerate 1 (sorted (elements dict_words))).

(** ** [read_paragraphs] *)

Definition paragraph_step (st : list string * string) (line : string)
  : list string * string :=
  let '(paragraphs, paragraph) := st in
  if decide (line = "") then (paragraphs ++ [paragraph], "")
  else (paragraphs, paragraph +:+ " " +:+ line).

(** The argument is the text read from the file. *)
Definition read_paragraphs (text : string) : list string :=
  let lines := Str.splitlines text in
  let '(paragraphs, paragraph) := foldl paragraph_step ([], "") lines in
  if bool_decide (0 < String.length paragraph)%nat
  then paragraphs ++ [paragraph] else paragraphs.

(** ** [paragraphs_to_features] *)

Abbreviation example := (string * list Z)%type.

Definition set_class (txt : string) (item : string * Z) (features : list Z)
  : option (list Z) :=
  let '(key, value) := item in
  if Str.contains (Str.lower key) (Str.lower txt)
  then Np.setitem features 0 value else Some features.

Definition set_feature (words : list string) (item : string * Z)
  (features : list Z) : option (list Z) :=
  let '(key, value) := item in
  if bool_decide (key ∈ words) then Np.setitem features value 1
  else Some features.

Definition para_id (txt : string) (i : Z) : string :=
  Str.replace ".txt" "" (Str.basename txt) +:+ "." +:+ pretty i.

Definition paragraph_features (dict_words : dict Z) (txt : string)
  (classes : dict Z) (item : Z * string) (paragraph_features : list example)
  : option (list example) :=
  let '(i, paragraph) := item in
  let features := Np.zeros (length dict_words + 1) in
  let words := find_unique_words paragraph in
  features ← for_ classes (set_class txt) features;
  features ← for_ dict_words (set_feature words) features;
  Some (paragraph_features ++ [(para_id txt i, features)]).

Definition paragraphs_to_features (dict_words : dict Z) (txt : string)
  (paragraphs : list string) (classes : dict Z) : option (list example) :=
  for_ (enumerate 1 paragraphs) (paragraph_features dict_words txt classes) [].

(** ** [create_dataset] *)

Definition create_dataset (dict_words : dict Z) (text_dir : corpus)
  (classes : dict Z) : option (list example) :=
  for_ text_dir (λ txt paragraph_features,
    let txt_paragraphs := read_paragraphs txt.2 in
    features ← paragraphs_to_features dict_words txt.1 txt_paragraphs classes;
    Some (paragraph_features ++ features)) [].

(** ** [data_to_csv] *)

Definition newline : string := String Char.LF "".

Definition csv_row (features : list (list Z)) (item : Z * example)
  (csv : string) : option string :=
  let '(i, data) := item in
  let csv := csv +:+ data.1 in
  feats ← features !! Z.to_nat i;
  let csv := foldl (λ csv feat, csv +:+ ", " +:+ pretty feat) csv feats in
  Some (csv +:+ newline).

Definition data_to_csv (dataset : list example) (features : list (list Z))
  : option string :=
  for_ (enumerate 0 dataset) (csv_row features) "".

(** ** [prune_dataset] *)

Module InfoGain.

(** Modelled from the spec: the module [info_gain] that defines
    [prune_dataset] is absent from the sources (only its call in [main]
    is there).  The base-2 logarithm of section 4.6, over the reals. *)
Definition log2 (x : R) : R := (ln x / ln 2)%R.

(** Modelled from the spec: one term [p * log2 p] of the Shannon entropy,
    with the convention [0 * log2 0 = 0]. *)
Definition plog2 (p : R) : R :=
  if Req_dec_T p 0 then 0%R else (p * log2 p)%R.

(** Modelled from the spec: the empirical frequency of the class [c]
    among [labels]. *)
Definition frequency (c : Z) (labels : list Z) : R :=
  (INR (length (filter (λ x, x = c) labels)) / INR (length labels))%R.

(** Modelled from the spec: [H(C) = - sum over c of p(c) * log2 p(c)],
    the classes being the labels that occur. *)
Definition entropy (labels : list Z) : R :=
  (- foldr Rplus 0 ((λ c, plog2 (frequency c labels)) <$> remove_dups labels))%R.

(** Modelled from the spec:
    [IG(f) = H(C) - (P(f=1) * H(C | f=1) + P(f=0) * H(C | f=0))], on the
    rows (class label, value of the feature [f]) of the dataset. *)
Definition info_gain (rows : list (Z * Z)) : R :=
  let n := INR (length rows) in
  let present := filter (λ r, r.2 = 1) rows in
  let absent := filter (λ r, r.2 = 0) rows in
  (entropy rows.*1
   - (INR (length present) / n * entropy present.*1
      + INR (length absent) / n * entropy absent.*1))%R.

(** Modelled from the spec: the class label (slot 0) and the value of the
    feature [f] of one example; reading past the end of the vector is an
    out-of-bounds access. *)
Definition row (f : nat) (ex : example) : option (Z * Z) :=
  c ← ex.2 !! 0%nat; v ← ex.2 !! f; Some (c, v).

(** Modelled from the spec: [(f, IG(f))] for each feature index from 1 to
    the vocabulary size. *)
Definition gains (full_dataset : list example) (n_vocab : nat)
  : option (list (nat * R)) :=
  mapM (λ f, rows ← mapM (row f) full_dataset; Some (f, info_gain rows))
       (seq 1 n_vocab).

(** Modelled from the spec: the ranking order, by descending gain, ties
    by ascending index (the tie-break section 4.6 recommends). *)
Definition ranks_before (a b : nat * R) : Prop :=
  (b.2 < a.2)%R ∨ (a.2 = b.2 ∧ (a.1 ≤ b.1)%nat).

#[global] Instance ranks_before_dec : RelDecision ranks_before.
Proof.
  intros a b. unfold ranks_before.
  destruct (Rlt_dec b.2 a.2) as [Hlt|Hlt]; [left; auto|].
  destruct (Req_dec_T a.2 b.2) as [Heq|Hne]; [|right; tauto].
  destruct (decide (a.1 ≤ b.1)%nat); [left|right]; tauto.
Defined.

(** Modelled from the spec: the sub-vector of an example restricted to the
    selected indices, in selection order. *)
Definition restrict (selected : list nat) (ex : example) : option (list Z) :=
  mapM (λ f, ex.2 !! f) selected.

(** Modelled from the spec: rank the features by information gain, select
    the top [n_feats] of them, and return the selected indices with the
    per-example sub-vectors the exporter consumes. *)
Definition prune_dataset (full_dataset : list example) (n_feats : nat)
  (dict_words : dict Z) : option (list nat * list (list Z)) :=
  ranked ← gains full_dataset (length dict_words);
  let selected := take n_feats (merge_sort ranks_before ranked).*1 in
  pruned ← mapM (restrict selected) full_dataset;
  Some (selected, pruned).

End InfoGain.

(** ** [main] *)

(** The branch of [main] that generates the dataset (no snapshot is
    loaded or saved); the result is the text it prints.  The count
    [n_feats] is taken non-negative. *)
Definition main (text_dir : corpus) (n_feats : nat) : option string :=
  let dict_words := create_dictionary text_dir in
  let classes := [("austin", 0); ("shelley", 1)] in
  full_dataset ← create_dataset dict_words text_dir classes;
  pruned_features ← InfoGain.prune_dataset full_dataset n_feats dict_words;
  data_to_csv full_dataset pruned_features.2.

(** * Specification vocabulary *)

(** The predicates and pure functions in which the properties below are
    stated. *)

(** The word a raw token contributes, if any. *)
Definition normalize (tok : string) : option string :=
  let word := Str.sub_nonalpha tok in
  if bool_decide (String.length word < 2)%nat then None
  else Some (Str.lower word).

(** A string all of whose characters satisfy [P]. *)
Fixpoint all_chars (P : ascii → bool) (s : string) : bool :=
  match s with
  | "" => true
  | String c s' => P c && all_chars P s'
  end.

(** A raw token: a non-empty string without whitespace. *)
Definition token (s : string) : Prop :=
  s ≠ "" ∧ all_chars (negb ∘ Char.isspace) s = true.

(** The lowercase letters [[a-z]]. *)
Definition islower_alpha (c : ascii) : bool :=
  let n := Char.code c in ((97 <=? n) && (n <=? 122))%N.

(** The ASCII characters: the code points below 128. *)
Definition isascii (c : ascii) : bool := (Char.code c <? 128)%N.

(** Strict ascending code-point order, Python's [<] on strings. *)
Definition str_lt (s1 s2 : string) : Prop := (s1 ?= s2)%string = Lt.

#[global] Instance str_lt_dec : RelDecision str_lt.
Proof. intros s1 s2. unfold str_lt. apply _. Defined.

(** The words of the corpus in index order. *)
Definition corpus_words (text_dir : corpus) : list string :=
  sorted (elements (list_to_set
    (foldl (λ dict_words txt, dict_words ++ find_unique_words txt.2) [] text_dir)
    : gset string)).

Definition swap {A B} (p : A * B) : B * A := (p.2, p.1).

(** The lines of a run, each preceded by a single space (section 4.3 of
    the specification: "joined with a single leading space per line"). *)
Definition join_lines (run : list string) : string :=
  foldr (λ line rest, " " +:+ line +:+ rest) "" run.

(** A maximal run of non-blank lines: it is bounded on each side by a blank
    line or by an end of the document. *)
Definition run_of (lines run : list string) : Prop :=
  ∃ pre post,
    lines = pre ++ run ++ post ∧ Forall (λ l, l ≠ "") run ∧
    (pre = [] ∨ last pre = Some "") ∧ (post = [] ∨ head post = Some "").

(** The loop invariant of [read_paragraphs] after the lines [seen]. *)
Definition segmented (seen : list string) (st : list string * string) : Prop :=
  (∀ q, q ∈ st.1 →
        ∃ pre run post, seen = pre ++ run ++ "" :: post ∧
          Forall (λ l, l ≠ "") run ∧ (pre = [] ∨ last pre = Some "") ∧
          q = join_lines run) ∧
  ∃ pre run, seen = pre ++ run ∧ Forall (λ l, l ≠ "") run ∧
             (pre = [] ∨ last pre = Some "") ∧ st.2 = join_lines run.

(** Every index of the dictionary lies in [1, |V|]. *)
Definition indices_in_range (d : dict Z) : Prop :=
  Forall (λ i, 1 ≤ i ≤ Z.of_nat (length d)) (Dict.values d).

(** A Vocabulary of the data model: an injective mapping from words to the
    indices [1, |V|]. *)
Definition vocabulary (d : dict Z) : Prop :=
  NoDup (Dict.keys d) ∧ NoDup (Dict.values d) ∧ indices_in_range d.

(** The class marker of an item occurs in the file name, case ignored. *)
Definition marks (txt : string) (item : string * Z) : Prop :=
  Str.contains (Str.lower item.1) (Str.lower txt) = true.

#[global] Instance marks_dec txt item : Decision (marks txt item).
Proof. unfold marks. apply _. Defined.

(** The class id of the last matching entry of the table, 0 without one. *)
Definition class_label (txt : string) (classes : dict Z) : Z :=
  match last (filter (marks txt) classes) with
  | Some item => item.2
  | None => 0
  end.

(** The presence writes as a pure update of the vector. *)
Definition mark_present (words : list string) (features : list Z)
  (item : string * Z) : list Z :=
  if bool_decide (item.1 ∈ words) then <[Z.to_nat item.2 := 1]> features
  else features.

(** Some word of [words] has the index [j] in [d]. *)
Definition marked (words : list string) (d : dict Z) (j : nat) : Prop :=
  ∃ w i, (w, i) ∈ d ∧ w ∈ words ∧ Z.to_nat i = j.

(** The vector the loop body builds for one paragraph. *)
Definition feature_vector (dict_words : dict Z) (txt : string)
  (classes : dict Z) (paragraph : string) : list Z :=
  let features := Np.zeros (length dict_words + 1) in
  let features :=
    match last (filter (marks txt) classes) with
    | Some item => <[0%nat := Np.uint8 item.2]> features
    | None => features
    end in
  foldl (mark_present (find_unique_words paragraph)) features dict_words.

(** One line of the output: the identifier and the values, separated by a
    comma and a space, ended by a newline. *)
Definition csv_line (data : example) (feats : list Z) : string :=
  String.concat ", " (data.1 :: (pretty <$> feats)) +:+ newline.

Definition fields (feats : list Z) : string :=
  foldr (λ feat rest, ", " +:+ pretty feat +:+ rest) "" feats.

(** Every vector of the dataset has the width [|V| + 1]. *)
Definition width (n_vocab : nat) (full_dataset : list example) : Prop :=
  Forall (λ ex : example, length ex.2 = S n_vocab) full_dataset.

(** * Properties *)

(** ** Strings *)

Section strings.

Implicit Types (s t u : string) (c : ascii).

Lemma str_app_cons c s t : String c s +:+ t = String c (s +:+ t).
Proof. reflexivity. Qed.

Lemma str_app_nil_l s : "" +:+ s = s.
Proof. reflexivity. Qed.

Lemma str_app_nil_r s : s +:+ "" = s.
Proof. induction s as [|c s IH]; [done|]. by rewrite str_app_cons, IH. Qed.

Lemma str_app_assoc s t u : (s +:+ t) +:+ u = s +:+ (t +:+ u).
Proof. induction s as [|c s IH]; [done|]. by rewrite !str_app_cons, IH. Qed.

Lemma str_length_app s t :
  String.length (s +:+ t) = (String.length s + String.length t)%nat.
Proof. induction s as [|c s IH]; [done|]. rewrite str_app_cons. simpl. by rewrite IH. Qed.

Lemma snoc_app s t c : Str.snoc s c +:+ t = s +:+ String c t.
Proof. unfold Str.snoc. by rewrite str_app_assoc, str_app_cons, str_app_nil_l. Qed.

Lemma nonempty_snoc s c : Str.nonempty (Str.snoc s c) = true.
Proof. by destruct s. Qed.

Lemma nonempty_true s : Str.nonempty s = true ↔ s ≠ "".
Proof. by destruct s. Qed.

Lemma flush_nonempty s : s ≠ "" → Str.flush s = [s].
Proof. by destruct s. Qed.

Lemma prefix_cons a s b t :
  String.prefix (String a s) (String b t)
  = if decide (a = b) then String.prefix s t else false.
Proof. simpl. destruct (ascii_dec a b); by case_decide. Qed.

Lemma prefix_nil_l s : String.prefix "" s = true.
Proof. by destruct s. Qed.

(** [String.prefix] is Python's [startswith]. *)
Lemma prefix_spec s t : String.prefix s t = true ↔ ∃ post, t = s +:+ post.
Proof.
  revert t. induction s as [|a s IH]; intros t.
  - rewrite prefix_nil_l. split; [|done]. intros _. by exists t.
  - destruct t as [|b t].
    + split; [done|]. by intros [post ?].
    + rewrite prefix_cons. case_decide as Hab.
      * subst b. rewrite IH. split; intros [post Hpost]; exists post.
        -- by rewrite str_app_cons, Hpost.
        -- rewrite str_app_cons in Hpost. by simplify_eq.
      * split; [done|]. intros [post Hpost].
        rewrite str_app_cons in Hpost. by simplify_eq.
Qed.

Lemma contains_nil sub : Str.contains sub "" = String.prefix sub "".
Proof. simpl. by rewrite orb_false_r. Qed.

Lemma contains_cons sub c s :
  Str.contains sub (String c s)
  = String.prefix sub (String c s) || Str.contains sub s.
Proof. done. Qed.

(** [Str.contains sub s] holds exactly when [sub] is a substring of [s]. *)
Lemma contains_spec sub s :
  Str.contains sub s = true ↔ ∃ pre post, s = pre +:+ sub +:+ post.
Proof.
  induction s as [|c s IH];
    [rewrite contains_nil|rewrite contains_cons, orb_true_iff];
    rewrite prefix_spec.
  - split.
    + intros [post Hpost]. by exists "", post.
    + intros (pre & post & Hs). exists post.
      destruct pre; [done|]. by rewrite str_app_cons in Hs.
  - rewrite IH. split.
    + intros [[post Hpost]|(pre & post & Hs)].
      * by exists "", post.
      * exists (String c pre), post. by rewrite str_app_cons, Hs.
    + intros ([|c' pre] & post & Hs).
      * left. by exists post.
      * right. exists pre, post. rewrite str_app_cons in Hs. by simplify_eq.
Qed.

End strings.

(** ** The tokenizer *)

Lemma clean_step_normalize acc tok :
  clean_step acc tok = acc ++ option_list (normalize tok).
Proof.
  unfold clean_step, normalize. case_bool_decide; simpl; [|done].
  by rewrite app_nil_r.
Qed.

Lemma clean_words_omap words : clean_words words = omap normalize words.
Proof.
  unfold clean_words.
  cut (∀ acc, foldl clean_step acc words = acc ++ omap normalize words).
  { intros H. by rewrite H. }
  induction words as [|w words IH]; intros acc; simpl.
  - by rewrite app_nil_r.
  - rewrite IH, clean_step_normalize, <-(assoc_L (++)).
    by destruct (normalize w).
Qed.

Lemma elem_of_clean_words w words :
  w ∈ clean_words words ↔
  ∃ tok, tok ∈ words ∧ (2 ≤ String.length (Str.sub_nonalpha tok))%nat
         ∧ w = Str.lower (Str.sub_nonalpha tok).
Proof.
  rewrite clean_words_omap, list_elem_of_omap. unfold normalize.
  split.
  - intros (tok & Hin & Hn). exists tok. case_bool_decide; simplify_eq.
    split_and!; [done|lia|done].
  - intros (tok & Hin & Hlen & ->). exists tok. split; [done|].
    case_bool_decide; [lia|done].
Qed.

Lemma elem_of_find_unique_words w text :
  w ∈ find_unique_words text ↔ w ∈ clean_words (Str.split text).
Proof. unfold find_unique_words. by rewrite elem_of_elements, elem_of_list_to_set. Qed.

Lemma NoDup_find_unique_words text : NoDup (find_unique_words text).
Proof. unfold find_unique_words. apply NoDup_elements. Qed.

Lemma all_chars_snoc P s c :
  all_chars P (Str.snoc s c) = all_chars P s && P c.
Proof.
  induction s as [|a s IH].
  - simpl. by rewrite andb_true_r.
  - change (Str.snoc (String a s) c) with (String a (Str.snoc s c)).
    simpl. by rewrite IH, andb_assoc.
Qed.

Lemma split_from_tokens tok s :
  all_chars (negb ∘ Char.isspace) tok = true →
  Forall token (Str.split_from tok s).
Proof.
  revert tok. induction s as [|c s IH]; intros tok Htok; simpl.
  - destruct tok; repeat constructor; done.
  - destruct (Char.isspace c) eqn:Hc.
    + apply Forall_app. split; [|by apply IH].
      destruct tok; repeat constructor; done.
    + apply IH. rewrite all_chars_snoc, Htok. simpl. by rewrite Hc.
Qed.

(** Every token [split] returns is non-empty and free of whitespace. *)
Lemma split_tokens s : Forall token (Str.split s).
Proof. by apply split_from_tokens. Qed.

Lemma split_from_app tok t s :
  all_chars (negb ∘ Char.isspace) t = true →
  Str.split_from tok (t +:+ s) = Str.split_from (tok +:+ t) s.
Proof.
  revert tok. induction t as [|c t IH]; intros tok Ht.
  - by rewrite str_app_nil_l, str_app_nil_r.
  - simpl in Ht. apply andb_true_iff in Ht as [Hc Ht].
    rewrite str_app_cons. simpl.
    apply negb_true_iff in Hc. rewrite Hc, IH by done.
    by rewrite snoc_app.
Qed.

(** [split] undoes joining tokens with single spaces. *)
Lemma split_concat toks :
  Forall token toks → Str.split (String.concat " " toks) = toks.
Proof.
  unfold Str.split. induction 1 as [|t toks [Hne Ht] Htoks IH]; [done|].
  destruct toks as [|t' toks].
  - simpl. rewrite <-(str_app_nil_r t) at 1.
    rewrite split_from_app by done. simpl. by rewrite flush_nonempty.
  - change (String.concat " " (t :: t' :: toks))
      with (t +:+ " " +:+ String.concat " " (t' :: toks)).
    rewrite split_from_app by done. rewrite str_app_nil_l.
    change (" " +:+ ?s) with (String " " s). simpl Str.split_from.
    change (Char.isspace " ") with true. simpl.
    rewrite flush_nonempty by done. by rewrite <-IH.
Qed.

Lemma lower_isalpha c : Char.isalpha c = true → islower_alpha (Char.lower c) = true.
Proof. destruct c as [[] [] [] [] [] [] [] []]; vm_compute; done. Qed.

Lemma all_chars_sub_nonalpha s : all_chars Char.isalpha (Str.sub_nonalpha s) = true.
Proof.
  induction s as [|c s IH]; [done|]. simpl.
  destruct (Char.isalpha c) eqn:Hc; [|done]. simpl. by rewrite Hc.
Qed.

Lemma all_chars_lower s :
  all_chars Char.isalpha s = true → all_chars islower_alpha (Str.lower s) = true.
Proof.
  induction s as [|c s IH]; [done|]. simpl.
  intros [Hc Hs]%andb_true_iff. by rewrite lower_isalpha, IH.
Qed.

Lemma length_lower s : String.length (Str.lower s) = String.length s.
Proof. induction s as [|c s IH]; [done|]. simpl. by rewrite IH. Qed.

(** Every word of the result is a Word of the data model: lowercase,
    alphabetic only, of length at least two. *)
Lemma find_unique_words_word w text :
  w ∈ find_unique_words text →
  (2 ≤ String.length w)%nat ∧ all_chars islower_alpha w = true.
Proof.
  rewrite elem_of_find_unique_words, elem_of_clean_words.
  intros (tok & _ & Hlen & ->). rewrite length_lower. split; [done|].
  apply all_chars_lower, all_chars_sub_nonalpha.
Qed.

(** C2: [find_unique_words] returns the set of distinct normalized words of
    the text.  The result has no duplicates; a word belongs to it exactly
    when it is the lowercased form of some whitespace-separated token with
    every character outside [[a-zA-Z]] removed, provided at least two
    characters remain; and membership depends only on which tokens occur in
    the text, not on their order or on how often they occur. *)
Theorem find_unique_words_spec (text : string) :
  NoDup (find_unique_words text) ∧
  (∀ w, w ∈ find_unique_words text ↔
        ∃ tok, tok ∈ Str.split text
               ∧ (2 ≤ String.length (Str.sub_nonalpha tok))%nat
               ∧ w = Str.lower (Str.sub_nonalpha tok)) ∧
  (∀ text', (∀ tok, tok ∈ Str.split text ↔ tok ∈ Str.split text') →
            ∀ w, w ∈ find_unique_words text ↔ w ∈ find_unique_words text').
Proof.
  split_and!.
  - apply NoDup_find_unique_words.
  - intros w. by rewrite elem_of_find_unique_words, elem_of_clean_words.
  - intros text' Htoks w.
    rewrite !elem_of_find_unique_words, !elem_of_clean_words.
    by setoid_rewrite Htoks.
Qed.

Lemma find_unique_words_spec_witness :
  "cat" ∈ find_unique_words "the Cat, the cat" ↔
  "cat" ∈ find_unique_words "cat the Cat,".
Proof.
  apply (proj2 (proj2 (find_unique_words_spec "the Cat, the cat"))).
  intros tok. vm_compute Str.split. rewrite !elem_of_cons. tauto.
Defined.

(** ** Dictionaries *)

Section dict.

Context {V : Type}.
Implicit Types (d : dict V) (k : string) (v : V).

Lemma setitem_fresh d k v :
  k ∉ Dict.keys d → Dict.setitem d k v = d ++ [(k, v)].
Proof.
  unfold Dict.keys. induction d as [|[k' v'] d IH]; intros Hk; simpl; [done|].
  rewrite fmap_cons, not_elem_of_cons in Hk. destruct Hk as [Hne Hk].
  case_decide; [by subst|]. by rewrite IH.
Qed.

Lemma get_Some_elem_of d k v : Dict.get d k = Some v → (k, v) ∈ d.
Proof.
  induction d as [|[k' v'] d IH]; simpl; [done|].
  case_decide; intros ?; simplify_eq; [left|right; auto].
Qed.

Lemma get_None d k : Dict.get d k = None ↔ k ∉ Dict.keys d.
Proof.
  unfold Dict.keys. induction d as [|[k' v'] d IH]; simpl.
  - split; [intros _; apply not_elem_of_nil|done].
  - rewrite not_elem_of_cons.
    case_decide; subst; [split; [done|tauto]|]. rewrite IH. intuition congruence.
Qed.

Lemma elem_of_get d k v :
  NoDup (Dict.keys d) → (k, v) ∈ d → Dict.get d k = Some v.
Proof.
  unfold Dict.keys. induction d as [|[k' v'] d IH]; simpl; intros Hnd Hin.
  - by apply elem_of_nil in Hin.
  - apply NoDup_cons in Hnd as [Hk' Hnd].
    apply elem_of_cons in Hin as [Heq|Hin]; simplify_eq.
    + by rewrite decide_True.
    + rewrite decide_False; [by apply IH|].
      intros ->. apply Hk'. apply list_elem_of_fmap. by exists (k, v).
Qed.

Lemma get_Some d k v :
  NoDup (Dict.keys d) → Dict.get d k = Some v ↔ (k, v) ∈ d.
Proof. split; [apply get_Some_elem_of|by apply elem_of_get]. Qed.

End dict.

(** ** [enumerate] *)

Section enumerate.

Context {A : Type}.
Implicit Types (l : list A) (start : Z).

Lemma length_enumerate start l : length (enumerate start l) = length l.
Proof. revert start. induction l as [|x l IH]; intros start; simpl; auto. Qed.

Lemma enumerate_lookup start l (n : nat) :
  enumerate start l !! n = (λ x, (start + Z.of_nat n, x)) <$> l !! n.
Proof.
  revert start n. induction l as [|x l IH]; intros start [|n]; simpl; try done.
  - by rewrite Z.add_0_r.
  - rewrite IH. destruct (l !! n); simpl; [|done]. do 2 f_equal. lia.
Qed.

Lemma enumerate_snd start l : (enumerate start l).*2 = l.
Proof. revert start. induction l as [|x l IH]; intros start; simpl; [done|]. by rewrite IH. Qed.

Lemma enumerate_fst start l :
  (enumerate start l).*1 = (λ n, start + Z.of_nat n) <$> seq 0 (length l).
Proof.
  revert start. induction l as [|x l IH]; intros start; simpl; [done|].
  rewrite IH, Z.add_0_r. f_equal. rewrite <-fmap_S_seq, <-list_fmap_compose.
  apply list_fmap_ext. intros _ n _. simpl. lia.
Qed.

Lemma enumerate_app start l1 l2 :
  enumerate start (l1 ++ l2)
  = enumerate start l1 ++ enumerate (start + Z.of_nat (length l1)) l2.
Proof.
  revert start. induction l1 as [|x l1 IH]; intros start; simpl.
  - by rewrite Z.add_0_r.
  - rewrite IH. do 3 f_equal. lia.
Qed.

End enumerate.

(** ** The vocabulary builder *)

Lemma compare_refl s : (s ?= s)%string = Eq.
Proof.
  induction s as [|c s IH]; simpl; [done|].
  unfold Ascii.compare. by rewrite N.compare_refl.
Qed.

Lemma str_lt_irrefl s : ¬ str_lt s s.
Proof. unfold str_lt. by rewrite compare_refl. Qed.

Lemma str_lt_asym s1 s2 : str_lt s1 s2 → ¬ str_lt s2 s1.
Proof.
  unfold str_lt. intros H1 H2.
  rewrite String.compare_antisym, H2 in H1. discriminate.
Qed.

Lemma le_ne_str_lt s1 s2 : String.le s1 s2 → s1 ≠ s2 → str_lt s1 s2.
Proof.
  unfold String.le, String.leb, str_lt. intros Hle Hne.
  destruct (s1 ?= s2)%string eqn:Hc; [|done|done].
  by apply String.compare_eq_iff in Hc.
Qed.

Lemma StronglySorted_le_lt (l : list string) :
  StronglySorted String.le l → NoDup l → StronglySorted str_lt l.
Proof.
  induction 1 as [|x l Hs IH Hx]; intros Hnd; constructor.
  - apply IH. by apply NoDup_cons in Hnd as [_ ?].
  - apply NoDup_cons in Hnd as [Hnin _].
    apply Forall_forall. intros y Hy. apply le_ne_str_lt.
    + by eapply Forall_forall in Hx.
    + by intros ->.
Qed.

Lemma StronglySorted_lookup_lt {A} (R : relation A) (l : list A) (a b : nat) x y :
  StronglySorted R l → l !! a = Some x → l !! b = Some y → (a < b)%nat → R x y.
Proof.
  intros Hs. revert a b. induction Hs as [|z l Hs IH Hz]; intros a b Ha Hb Hab.
  - by rewrite lookup_nil in Ha.
  - destruct b as [|b]; [lia|]. destruct a as [|a]; simpl in *.
    + simplify_eq. eapply Forall_forall in Hz; [done|].
      by eapply list_elem_of_lookup_2.
    + eapply IH; [done..|lia].
Qed.

Lemma sorted_Permutation l : sorted l ≡ₚ l.
Proof. apply merge_sort_Permutation. Qed.

Lemma sorted_StronglySorted l : NoDup l → StronglySorted str_lt (sorted l).
Proof.
  intros Hnd. apply StronglySorted_le_lt.
  - unfold sorted. apply (StronglySorted_merge_sort String.le).
  - by rewrite sorted_Permutation.
Qed.

Lemma dict_comprehension (ws : list string) (k : Z) (d : dict Z) :
  NoDup ws → (∀ w, w ∈ ws → w ∉ Dict.keys d) →
  foldl (λ d '(value, key), Dict.setitem d key value) d (enumerate k ws)
  = d ++ (swap <$> enumerate k ws).
Proof.
  revert k d. induction ws as [|w ws IH]; intros k d Hnd Hfresh; simpl.
  - by rewrite app_nil_r.
  - apply NoDup_cons in Hnd as [Hw Hnd].
    rewrite setitem_fresh by (apply Hfresh; left).
    rewrite IH; [by rewrite <-(assoc_L (++))|done|].
    intros w' Hw'. unfold Dict.keys. rewrite fmap_app, not_elem_of_app. split.
    + apply Hfresh. by right.
    + simpl. rewrite list_elem_of_singleton. by intros ->.
Qed.

Lemma NoDup_corpus_words text_dir : NoDup (corpus_words text_dir).
Proof.
  unfold corpus_words. rewrite sorted_Permutation. apply NoDup_elements.
Qed.

Lemma elem_of_corpus_words w text_dir :
  w ∈ corpus_words text_dir ↔
  ∃ txt, txt ∈ text_dir ∧ w ∈ find_unique_words txt.2.
Proof.
  unfold corpus_words.
  rewrite sorted_Permutation, elem_of_elements, elem_of_list_to_set.
  cut (∀ acc, w ∈ foldl (λ dict_words txt, dict_words ++ find_unique_words txt.2)
                    acc text_dir
              ↔ w ∈ acc ∨ ∃ txt, txt ∈ text_dir ∧ w ∈ find_unique_words txt.2).
  { intros H. rewrite H. split; [intros [Hin|?]; [|done]|by right].
    by apply elem_of_nil in Hin. }
  induction text_dir as [|txt text_dir IH]; intros acc; simpl.
  - split; [by left|]. intros [?|(? & Hin & _)]; [done|]. by apply elem_of_nil in Hin.
  - rewrite IH, elem_of_app. setoid_rewrite elem_of_cons. split.
    + intros [[?|?]|(t & ? & ?)]; eauto 6.
    + intros [?|(t & [->|?] & ?)]; eauto 6.
Qed.

Lemma create_dictionary_zip text_dir :
  create_dictionary text_dir = swap <$> enumerate 1 (corpus_words text_dir).
Proof.
  unfold create_dictionary. fold (corpus_words text_dir).
  rewrite dict_comprehension; [done|apply NoDup_corpus_words|].
  intros w _. apply not_elem_of_nil.
Qed.

Lemma keys_create_dictionary text_dir :
  Dict.keys (create_dictionary text_dir) = corpus_words text_dir.
Proof.
  rewrite create_dictionary_zip. unfold Dict.keys.
  rewrite <-list_fmap_compose. apply enumerate_snd.
Qed.

Lemma length_create_dictionary text_dir :
  length (create_dictionary text_dir) = length (corpus_words text_dir).
Proof. by rewrite create_dictionary_zip, length_fmap, length_enumerate. Qed.

Lemma values_create_dictionary text_dir :
  Dict.values (create_dictionary text_dir)
  = Z.of_nat <$> seq 1 (length (create_dictionary text_dir)).
Proof.
  rewrite length_create_dictionary, create_dictionary_zip. unfold Dict.values.
  rewrite <-list_fmap_compose.
  change (snd ∘ swap) with (@fst Z string). rewrite enumerate_fst.
  rewrite <-fmap_S_seq, <-list_fmap_compose.
  apply list_fmap_ext. intros _ n _. simpl. lia.
Qed.

Lemma elem_of_create_dictionary w i text_dir :
  (w, i) ∈ create_dictionary text_dir ↔
  ∃ n : nat, corpus_words text_dir !! n = Some w ∧ i = 1 + Z.of_nat n.
Proof.
  rewrite create_dictionary_zip, list_elem_of_fmap. split.
  - intros ([j w'] & Heq & Hin). unfold swap in Heq. simplify_eq/=.
    apply list_elem_of_lookup in Hin as [n Hn].
    rewrite enumerate_lookup in Hn. exists n.
    destruct (corpus_words text_dir !! n); by simplify_eq/=.
  - intros (n & Hn & ->). exists (1 + Z.of_nat n, w). split; [done|].
    apply list_elem_of_lookup. exists n. by rewrite enumerate_lookup, Hn.
Qed.

Lemma get_create_dictionary w i text_dir :
  Dict.get (create_dictionary text_dir) w = Some i ↔
  ∃ n : nat, corpus_words text_dir !! n = Some w ∧ i = 1 + Z.of_nat n.
Proof.
  rewrite get_Some; [apply elem_of_create_dictionary|].
  rewrite keys_create_dictionary. apply NoDup_corpus_words.
Qed.

(** C1: [create_dictionary] maps exactly the union of the normalized unique
    words of every file's whole content to indices; the words, taken in
    strictly ascending lexicographic order, get the indices 1, 2, 3, ...;
    the mapping is injective; its index range is exactly [1, |V|]; index 0
    is assigned to no word; and a word sorts before another exactly when
    its index is smaller. *)
Theorem create_dictionary_spec (text_dir : corpus) :
  (∀ w, is_Some (Dict.get (create_dictionary text_dir) w) ↔
        ∃ txt, txt ∈ text_dir ∧ w ∈ find_unique_words txt.2) ∧
  StronglySorted str_lt (Dict.keys (create_dictionary text_dir)) ∧
  Dict.values (create_dictionary text_dir)
    = Z.of_nat <$> seq 1 (length (create_dictionary text_dir)) ∧
  (∀ w1 w2 i, Dict.get (create_dictionary text_dir) w1 = Some i →
              Dict.get (create_dictionary text_dir) w2 = Some i → w1 = w2) ∧
  (∀ i, (∃ w, Dict.get (create_dictionary text_dir) w = Some i) ↔
        1 ≤ i ≤ Z.of_nat (length (create_dictionary text_dir))) ∧
  (∀ w, Dict.get (create_dictionary text_dir) w ≠ Some 0) ∧
  (∀ w1 w2 i1 i2, Dict.get (create_dictionary text_dir) w1 = Some i1 →
                  Dict.get (create_dictionary text_dir) w2 = Some i2 →
                  (str_lt w1 w2 ↔ i1 < i2)).
Proof.
  assert (StronglySorted str_lt (corpus_words text_dir)) as Hsorted.
  { unfold corpus_words. apply sorted_StronglySorted, NoDup_elements. }
  assert (∀ i, (∃ w, Dict.get (create_dictionary text_dir) w = Some i) ↔
               1 ≤ i ≤ Z.of_nat (length (create_dictionary text_dir))) as Hrange.
  { intros i. rewrite length_create_dictionary. split.
    - intros (w & (n & Hn & ->)%get_create_dictionary).
      apply lookup_lt_Some in Hn. lia.
    - intros Hi.
      destruct (lookup_lt_is_Some_2 (corpus_words text_dir) (Z.to_nat (i - 1)))
        as [w Hw]; [lia|].
      exists w. apply get_create_dictionary. exists (Z.to_nat (i - 1)).
      split; [done|lia]. }
  split_and!.
  - intros w. rewrite <-not_eq_None_Some, get_None, keys_create_dictionary.
    rewrite <-elem_of_corpus_words. split; [apply dec_stable|by intros ? []].
  - by rewrite keys_create_dictionary.
  - apply values_create_dictionary.
  - intros w1 w2 i (n1 & Hn1 & ->)%get_create_dictionary
      (n2 & Hn2 & Heq)%get_create_dictionary.
    assert (n1 = n2) as -> by lia. congruence.
  - done.
  - intros w Hw. assert (1 ≤ 0) as ?; [|lia]. apply Hrange. eauto.
  - intros w1 w2 i1 i2 (n1 & Hn1 & ->)%get_create_dictionary
      (n2 & Hn2 & ->)%get_create_dictionary.
    split.
    + intros Hlt. destruct (decide (n1 < n2)%nat) as [|Hge]; [lia|].
      exfalso. destruct (decide (n1 = n2)) as [->|Hne].
      * simplify_eq. by apply str_lt_irrefl in Hlt.
      * eapply str_lt_asym; [exact Hlt|].
        eapply (StronglySorted_lookup_lt str_lt); [done..|lia].
    + intros Hlt. eapply (StronglySorted_lookup_lt str_lt); [done..|lia].
Qed.

(** ** The paragraph segmenter *)

Lemma join_lines_app run1 run2 :
  join_lines (run1 ++ run2) = join_lines run1 +:+ join_lines run2.
Proof.
  induction run1 as [|l run1 IH]; [done|]. simpl.
  by rewrite IH, !str_app_assoc.
Qed.

(** For a non-empty run this is one space followed by [" ".join(run)]. *)
Lemma join_lines_concat run :
  run ≠ [] → join_lines run = " " +:+ String.concat " " run.
Proof.
  induction run as [|l run IH]; [done|]. intros _.
  destruct run as [|l' run].
  - simpl. by rewrite str_app_nil_r.
  - change (String.concat " " (l :: l' :: run))
      with (l +:+ " " +:+ String.concat " " (l' :: run)).
    change (join_lines (l :: l' :: run)) with (" " +:+ l +:+ join_lines (l' :: run)).
    by rewrite IH.
Qed.

Lemma join_lines_nonempty run : run ≠ [] → join_lines run ≠ "".
Proof. by destruct run. Qed.

Lemma length_nonempty (s : string) :
  bool_decide (0 < String.length s)%nat = Str.nonempty s.
Proof. by destruct s. Qed.

(** Without a blank line the loop only extends the running paragraph. *)
Lemma paragraph_fold_no_blank lines paragraphs paragraph :
  Forall (λ l, l ≠ "") lines →
  foldl paragraph_step (paragraphs, paragraph) lines
  = (paragraphs, paragraph +:+ join_lines lines).
Proof.
  intros Hlines. revert paragraph.
  induction Hlines as [|l lines Hl _ IH]; intros paragraph; simpl.
  - by rewrite str_app_nil_r.
  - rewrite decide_False by done. by rewrite IH, !str_app_assoc.
Qed.

Lemma splitlines_from_nonempty after_cr cur s :
  cur ≠ "" → Str.splitlines_from after_cr cur s ≠ [].
Proof.
  revert after_cr cur. induction s as [|c s IH]; intros after_cr cur Hcur; simpl.
  - by rewrite flush_nonempty.
  - destruct (after_cr && bool_decide (c = Char.LF)); [by apply IH|].
    destruct (Char.islinebreak c); [done|].
    apply IH. by destruct cur.
Qed.

(** Only the empty text has no lines. *)
Lemma splitlines_nil s : Str.splitlines s = [] ↔ s = "".
Proof.
  split; [|by intros ->].
  destruct s as [|c s]; [done|]. unfold Str.splitlines. simpl.
  destruct (Char.islinebreak c); [done|].
  intros H. by apply splitlines_from_nonempty in H.
Qed.

Lemma splitlines_from_line cur line rest :
  all_chars (negb ∘ Char.islinebreak) line = true →
  Str.splitlines_from false cur (line +:+ rest)
  = Str.splitlines_from false (cur +:+ line) rest.
Proof.
  revert cur. induction line as [|c line IH]; intros cur Hline.
  - by rewrite str_app_nil_l, str_app_nil_r.
  - simpl in Hline. apply andb_true_iff in Hline as [Hc Hline].
    apply negb_true_iff in Hc. rewrite str_app_cons. simpl.
    rewrite Hc, IH by done. by rewrite snoc_app.
Qed.

(** [splitlines] undoes joining lines with newlines, when no line contains
    a line boundary and the last line is not empty. *)
Lemma splitlines_concat lines :
  Forall (λ l, all_chars (negb ∘ Char.islinebreak) l = true) lines →
  last lines ≠ Some "" →
  Str.splitlines (String.concat newline lines) = lines.
Proof.
  unfold Str.splitlines. induction 1 as [|l lines Hl Hlines IH]; [done|].
  intros Hlast. destruct lines as [|l' lines].
  - simpl. rewrite <-(str_app_nil_r l) at 1.
    rewrite splitlines_from_line by done. simpl.
    apply flush_nonempty. by intros ->.
  - change (String.concat newline (l :: l' :: lines))
      with (l +:+ newline +:+ String.concat newline (l' :: lines)).
    rewrite splitlines_from_line by done. rewrite str_app_nil_l.
    change (newline +:+ ?s) with (String Char.LF s).
    cbn [Str.splitlines_from]. simpl andb. cbv iota.
    change (Char.islinebreak Char.LF) with true. cbv iota.
    change (bool_decide (Char.LF = Char.CR)) with false.
    f_equal. apply IH. by rewrite last_cons_cons in Hlast.
Qed.

(** C7: a document without any blank line yields exactly one paragraph,
    its lines joined by single spaces (after the single leading space every
    line gets, as section 4.3 describes the join); the empty document yields
    the empty sequence. *)
Theorem read_paragraphs_no_blank (text : string) :
  Forall (λ l, l ≠ "") (Str.splitlines text) →
  read_paragraphs text
  = if decide (text = "") then []
    else [" " +:+ String.concat " " (Str.splitlines text)].
Proof.
  intros Hlines. case_decide as Htext; [by subst|]. unfold read_paragraphs.
  assert (Str.splitlines text ≠ []) as Hne by by rewrite splitlines_nil.
  rewrite paragraph_fold_no_blank by done.
  rewrite str_app_nil_l, length_nonempty.
  rewrite (proj2 (nonempty_true _)) by by apply join_lines_nonempty.
  by rewrite join_lines_concat.
Qed.

Lemma read_paragraphs_no_blank_witness :
  Forall (λ l, l ≠ "") (Str.splitlines ("It was" +:+ newline +:+ "dark."))
  ∧ read_paragraphs ("It was" +:+ newline +:+ "dark.") = [" It was dark."].
Proof.
  split; [by repeat constructor|].
  apply (read_paragraphs_no_blank ("It was" +:+ newline +:+ "dark.")).
  by repeat constructor.
Defined.

(** A document written as non-empty lines separated by newlines is one
    paragraph. *)
Lemma read_paragraphs_lines lines :
  lines ≠ [] →
  Forall (λ l, l ≠ "" ∧ all_chars (negb ∘ Char.islinebreak) l = true) lines →
  read_paragraphs (String.concat newline lines)
  = [" " +:+ String.concat " " lines].
Proof.
  intros Hne Hlines.
  assert (Str.splitlines (String.concat newline lines) = lines) as Hsplit.
  { apply splitlines_concat.
    - eapply Forall_impl; [exact Hlines|]. by intros l [_ ?].
    - intros Hlast%last_Some_elem_of.
      eapply Forall_forall in Hlines; [|done]. by destruct Hlines. }
  unfold read_paragraphs. rewrite Hsplit.
  rewrite paragraph_fold_no_blank
    by (eapply Forall_impl; [exact Hlines|]; by intros l [? _]).
  rewrite str_app_nil_l, length_nonempty.
  rewrite (proj2 (nonempty_true _)) by by apply join_lines_nonempty.
  by rewrite join_lines_concat.
Qed.

Lemma segmented_step seen st line :
  segmented seen st → segmented (seen ++ [line]) (paragraph_step st line).
Proof.
  destruct st as [ps p]. intros [Hps (pre & run & -> & Hrun & Hpre & Hp)].
  simpl in *. unfold paragraph_step. case_decide as Hline; split; simpl.
  - subst line. intros q [Hq|Hq]%elem_of_app.
    + destruct (Hps q Hq) as (pre' & run' & post' & Heq & ? & ? & ?).
      exists pre', run', (post' ++ [""]). split_and!; [|done..].
      rewrite Heq. by rewrite <-!(assoc_L (++)).
    + apply list_elem_of_singleton in Hq as ->.
      exists pre, run, []. split_and!; [|done..]. by rewrite <-(assoc_L (++)).
  - subst line. exists ((pre ++ run) ++ [""]), []. split_and!; [|done| |done].
    + by rewrite app_nil_r.
    + right. by rewrite last_snoc.
  - intros q Hq. destruct (Hps q Hq) as (pre' & run' & post' & Heq & ? & ? & ?).
    exists pre', run', (post' ++ [line]). split_and!; [|done..].
    rewrite Heq. by rewrite <-!(assoc_L (++)).
  - exists pre, (run ++ [line]). split_and!; [|by apply Forall_app; auto|done|].
    + by rewrite <-(assoc_L (++)).
    + rewrite join_lines_app, Hp. simpl. by rewrite str_app_nil_r.
Qed.

Lemma segmented_fold lines seen st :
  segmented seen st → segmented (seen ++ lines) (foldl paragraph_step st lines).
Proof.
  revert seen st. induction lines as [|l lines IH]; intros seen st Hst; simpl.
  - by rewrite app_nil_r.
  - rewrite cons_middle, (assoc_L (++)). by apply IH, segmented_step.
Qed.

(** Every element of the result joins a maximal run of non-blank lines of
    the document; the run is empty exactly when the element is the empty
    string. *)
Lemma read_paragraphs_runs text p :
  p ∈ read_paragraphs text →
  ∃ run, run_of (Str.splitlines text) run ∧ p = join_lines run
         ∧ (p = "" ↔ run = []).
Proof.
  unfold read_paragraphs.
  pose proof (segmented_fold (Str.splitlines text) [] ([], "")) as Hseg.
  destruct (foldl paragraph_step ([], "") (Str.splitlines text)) as [ps q].
  destruct Hseg as [Hps (pre & run & Heq & Hrun & Hpre & Hq)].
  { split; [by intros ? ?%elem_of_nil|]. exists [], []. by split_and!; auto. }
  simpl in *.
  assert (∀ run' : list string, join_lines run' = "" ↔ run' = []) as Hempty.
  { intros [|??]; by split. }
  assert (p ∈ ps →
    ∃ run, run_of (Str.splitlines text) run ∧ p = join_lines run
           ∧ (p = "" ↔ run = [])) as Hold.
  { intros Hp. destruct (Hps p Hp) as (pre' & run' & post' & Heq' & ? & ? & ->).
    exists run'. split_and!; [|done|apply Hempty].
    exists pre', ("" :: post'). split_and!; auto. }
  case_bool_decide; [|done].
  intros [Hp|Hp]%elem_of_app; [by apply Hold|].
  apply list_elem_of_singleton in Hp as ->. subst q.
  exists run. split_and!; [|done|apply Hempty].
  exists pre, []. split_and!; auto. by rewrite app_nil_r.
Qed.

(** C6: the segmenter emits an empty paragraph for the second of two
    consecutive blank lines, and for a blank first line. *)
Theorem read_paragraphs_blank_lines :
  read_paragraphs ("a" +:+ newline +:+ newline +:+ newline +:+ "b")
    = [" a"; ""; " b"] ∧
  read_paragraphs (newline +:+ "a") = [""; " a"].
Proof. by split. Qed.

(** ** The feature vectorizer *)

Lemma setitem_in_range (a : list Z) (i x : Z) :
  0 ≤ i < Z.of_nat (length a) →
  Np.setitem a i x = Some (<[Z.to_nat i := Np.uint8 x]> a).
Proof. intros Hi. unfold Np.setitem. by rewrite decide_True. Qed.

Lemma for_set_class txt (classes : dict Z) (features : list Z) :
  (0 < length features)%nat →
  for_ classes (set_class txt) features
  = Some (match last (filter (marks txt) classes) with
          | Some item => <[0%nat := Np.uint8 item.2]> features
          | None => features
          end).
Proof.
  revert features. induction classes as [|[key value] classes IH];
    intros features Hlen; [done|].
  simpl for_. unfold set_class at 1.
  destruct (decide (marks txt (key, value))) as [Hm|Hm].
  - rewrite filter_cons_True by done. unfold marks in Hm. simpl in Hm. rewrite Hm.
    rewrite setitem_in_range by lia. simpl.
    rewrite IH by (rewrite length_insert; lia). rewrite last_cons.
    destruct (last (filter (marks txt) classes)); [|done].
    by rewrite list_insert_insert_eq.
  - rewrite filter_cons_False by done. unfold marks in Hm. simpl in Hm.
    apply not_true_is_false in Hm. rewrite Hm. simpl. by apply IH.
Qed.

Lemma length_mark_present words (d : dict Z) (features : list Z) :
  length (foldl (mark_present words) features d) = length features.
Proof.
  revert features. induction d as [|item d IH]; intros features; [done|].
  simpl. rewrite IH. unfold mark_present. case_bool_decide; [|done].
  apply length_insert.
Qed.

Lemma set_feature_mark_present words (item : string * Z) (features : list Z) :
  0 ≤ item.2 < Z.of_nat (length features) →
  set_feature words item features = Some (mark_present words features item).
Proof.
  destruct item as [key value]. intros Hi. unfold set_feature, mark_present.
  simpl in *. case_bool_decide; [|done]. by rewrite setitem_in_range.
Qed.

Lemma for_set_feature words (d : dict Z) (features : list Z) :
  Forall (λ i, 0 ≤ i < Z.of_nat (length features)) (Dict.values d) →
  for_ d (set_feature words) features
  = Some (foldl (mark_present words) features d).
Proof.
  revert features. induction d as [|item d IH]; intros features Hd; [done|].
  apply Forall_cons in Hd as [Hi Hd]. simpl.
  rewrite set_feature_mark_present by done. simpl. apply IH.
  pose proof (length_mark_present words [item] features) as Hlen.
  simpl in Hlen. by rewrite Hlen.
Qed.

Lemma mark_present_marked words (d : dict Z) (features : list Z) j :
  marked words d j → (j < length features)%nat →
  foldl (mark_present words) features d !! j = Some 1.
Proof.
  revert features. induction d as [|item d IH] using rev_ind;
    intros features (w & i & Hin & Hw & Hj) Hlen.
  { by apply elem_of_nil in Hin. }
  rewrite foldl_app. simpl. unfold mark_present at 1.
  apply elem_of_app in Hin as [Hin|Hin].
  - assert (foldl (mark_present words) features d !! j = Some 1) as Hd.
    { apply IH; [|done]. by exists w, i. }
    case_bool_decide; [|done].
    destruct (decide (Z.to_nat item.2 = j)) as [->|Hne].
    + apply list_lookup_insert_eq. by rewrite length_mark_present.
    + by rewrite list_lookup_insert_ne.
  - apply list_elem_of_singleton in Hin as <-. simpl.
    rewrite bool_decide_eq_true_2 by done. rewrite Hj.
    apply list_lookup_insert_eq. by rewrite length_mark_present.
Qed.

Lemma mark_present_unmarked words (d : dict Z) (features : list Z) j :
  ¬ marked words d j →
  foldl (mark_present words) features d !! j = features !! j.
Proof.
  revert features. induction d as [|[w i] d IH]; intros features Hj; [done|].
  simpl. rewrite IH.
  - unfold mark_present. simpl. case_bool_decide as Hw; [|done].
    apply list_lookup_insert_ne. intros Hi. apply Hj. exists w, i.
    split_and!; [left|done..].
  - intros (w' & i' & Hin & ? & ?). apply Hj. exists w', i'.
    split_and!; [by right|done..].
Qed.

Lemma paragraph_features_Some (d : dict Z) txt classes i paragraph acc :
  indices_in_range d →
  paragraph_features d txt classes (i, paragraph) acc
  = Some (acc ++ [(para_id txt i, feature_vector d txt classes paragraph)]).
Proof.
  intros Hd. unfold paragraph_features, feature_vector.
  assert (length (Np.zeros (length d + 1)) = S (length d)) as Hlen.
  { unfold Np.zeros. rewrite length_replicate. lia. }
  rewrite for_set_class by lia. simpl.
  rewrite for_set_feature; [done|].
  eapply Forall_impl; [exact Hd|]. intros j Hj. simpl in Hj.
  destruct (last (filter (marks txt) classes));
    rewrite ?length_insert, Hlen; lia.
Qed.

Lemma paragraphs_to_features_Some (d : dict Z) txt paragraphs classes :
  indices_in_range d →
  paragraphs_to_features d txt paragraphs classes
  = Some ((λ item, (para_id txt item.1, feature_vector d txt classes item.2))
            <$> enumerate 1 paragraphs).
Proof.
  intros Hd. unfold paragraphs_to_features.
  cut (∀ items acc,
    for_ items (paragraph_features d txt classes) acc
    = Some (acc ++ ((λ item, (para_id txt item.1,
                              feature_vector d txt classes item.2)) <$> items))).
  { intros H. by rewrite H. }
  induction items as [|[i paragraph] items IH]; intros acc.
  - simpl. by rewrite app_nil_r.
  - cbn [for_]. rewrite paragraph_features_Some by done. simpl.
    by rewrite IH, <-(assoc_L (++)).
Qed.

Lemma length_feature_vector (d : dict Z) txt classes paragraph :
  length (feature_vector d txt classes paragraph) = S (length d).
Proof.
  unfold feature_vector. rewrite length_mark_present.
  destruct (last (filter (marks txt) classes));
    rewrite ?length_insert; unfold Np.zeros; rewrite length_replicate; lia.
Qed.

Lemma vocabulary_create_dictionary text_dir :
  vocabulary (create_dictionary text_dir).
Proof.
  split_and!.
  - rewrite keys_create_dictionary. apply NoDup_corpus_words.
  - rewrite values_create_dictionary. apply (NoDup_fmap_2 _), NoDup_seq.
  - unfold indices_in_range. rewrite values_create_dictionary.
    apply Forall_fmap, Forall_forall. intros n Hn%elem_of_seq. simpl. lia.
Qed.

Lemma NoDup_values_inj (d : dict Z) w1 w2 i :
  NoDup (Dict.values d) → (w1, i) ∈ d → (w2, i) ∈ d → w1 = w2.
Proof.
  intros Hnd [n1 Hn1]%list_elem_of_lookup [n2 Hn2]%list_elem_of_lookup.
  assert (n1 = n2) as ->; [|congruence].
  apply (NoDup_lookup (Dict.values d) n1 n2 i); [done|..];
    unfold Dict.values; rewrite list_lookup_fmap.
  - by rewrite Hn1.
  - by rewrite Hn2.
Qed.

(** In a vocabulary every index of [1, |V|] belongs to some word. *)
Lemma vocabulary_index (d : dict Z) j :
  vocabulary d → 1 ≤ j ≤ Z.of_nat (length d) → ∃ w, (w, j) ∈ d.
Proof.
  intros (_ & Hnd & Hrange) Hj.
  assert (Dict.values d ≡ₚ Z.of_nat <$> seq 1 (length d)) as Hperm.
  { apply submseteq_length_Permutation.
    - apply NoDup_submseteq; [done|]. intros i Hi.
      eapply Forall_forall in Hrange; [|done]. simpl in Hrange.
      apply list_elem_of_fmap. exists (Z.to_nat i). split; [lia|].
      apply elem_of_seq. lia.
    - unfold Dict.values. by rewrite !length_fmap, length_seq. }
  assert (j ∈ Dict.values d) as Hin.
  { rewrite Hperm. apply list_elem_of_fmap. exists (Z.to_nat j).
    split; [lia|]. apply elem_of_seq. lia. }
  apply list_elem_of_fmap in Hin as ([w i] & -> & Hin). by exists w.
Qed.

Lemma not_marked_0 words (d : dict Z) : indices_in_range d → ¬ marked words d 0.
Proof.
  intros Hd (w & i & Hin & _ & Hi).
  eapply Forall_forall in Hd; [|by apply (list_elem_of_fmap_2 snd)].
  simpl in Hd. lia.
Qed.

(** C3: for a vocabulary of size [|V|] every emitted feature vector has
    length [|V| + 1], and for every index [j] of [1, |V|] its slot [j] is 1
    if the vocabulary word with index [j] is in the normalized word set of
    the paragraph and 0 otherwise.  The class ids are those a vector of
    unsigned bytes holds. *)
Theorem paragraphs_to_features_presence (d : dict Z) (txt : string)
  (paragraphs : list string) (classes : dict Z) :
  vocabulary d →
  Forall (λ c, 0 ≤ c < 256) (Dict.values classes) →
  ∃ out,
    paragraphs_to_features d txt paragraphs classes = Some out ∧
    length out = length paragraphs ∧
    ∀ (k : nat) paragraph, paragraphs !! k = Some paragraph →
      ∃ id features,
        out !! k = Some (id, features) ∧
        length features = S (length d) ∧
        ∀ j, 1 ≤ j ≤ Z.of_nat (length d) →
          (∃ w, Dict.get d w = Some j) ∧
          ∀ w, Dict.get d w = Some j →
               features !! Z.to_nat j
               = Some (if bool_decide (w ∈ find_unique_words paragraph)
                       then 1 else 0).
Proof.
  intros Hvoc _. pose proof Hvoc as (Hkeys & Hvals & Hrange).
  eexists. split; [by apply paragraphs_to_features_Some|].
  split; [by rewrite length_fmap, length_enumerate|].
  intros k paragraph Hk.
  exists (para_id txt (1 + Z.of_nat k)), (feature_vector d txt classes paragraph).
  split; [by rewrite list_lookup_fmap, enumerate_lookup, Hk|].
  split; [apply length_feature_vector|].
  intros j Hj. split.
  { destruct (vocabulary_index d j Hvoc Hj) as [w Hw].
    exists w. by apply elem_of_get. }
  intros w Hw%get_Some_elem_of.
  unfold feature_vector. case_bool_decide as Hin.
  - apply mark_present_marked; [by exists w, j|].
    destruct (last (filter (marks txt) classes));
      rewrite ?length_insert; unfold Np.zeros; rewrite length_replicate; lia.
  - rewrite mark_present_unmarked.
    + assert (Np.zeros (length d + 1) !! Z.to_nat j = Some 0) as Hzero.
      { apply lookup_replicate_2. lia. }
      destruct (last (filter (marks txt) classes)); [|done].
      rewrite list_lookup_insert_ne by lia. done.
    + intros (w' & i' & Hin' & Hw' & Hi'). apply Hin.
      assert (i' = j) as ->.
      { eapply Forall_forall in Hrange; [|by apply (list_elem_of_fmap_2 snd)].
        simpl in Hrange. lia. }
      by rewrite (NoDup_values_inj d w w' j).
Qed.

Lemma paragraphs_to_features_presence_witness :
  vocabulary [("cat", 1); ("dog", 2)] ∧
  Forall (λ c, 0 ≤ c < 256) (Dict.values [("austin", 0); ("shelley", 1)]) ∧
  ∃ out, paragraphs_to_features [("cat", 1); ("dog", 2)] "txts/austin1.txt"
           ["The Dog."; "a cat"] [("austin", 0); ("shelley", 1)] = Some out
         ∧ length out = 2%nat.
Proof.
  assert (vocabulary [("cat", 1); ("dog", 2)]) as Hvoc.
  { split_and!; [apply (bool_decide_unpack _); by vm_compute..|].
    repeat constructor; simpl; lia. }
  assert (Forall (λ c, 0 ≤ c < 256)
            (Dict.values [("austin", 0); ("shelley", 1)])) as Hc.
  { repeat constructor; simpl; lia. }
  split; [exact Hvoc|]. split; [exact Hc|].
  destruct (paragraphs_to_features_presence [("cat", 1); ("dog", 2)]
              "txts/austin1.txt" ["The Dog."; "a cat"]
              [("austin", 0); ("shelley", 1)] Hvoc Hc)
    as (out & Hout & Hlen & _).
  exists out. exact (conj Hout Hlen).
Defined.

(** C4: slot 0 of every emitted vector is the class id of the last entry of
    the class table, in insertion order, whose lowercased marker is a
    substring of the lowercased file name, and stays 0 when no marker
    matches.  The class ids are those a vector of unsigned bytes holds. *)
Theorem paragraphs_to_features_class (d : dict Z) (txt : string)
  (paragraphs : list string) (classes : dict Z) :
  indices_in_range d →
  Forall (λ c, 0 ≤ c < 256) (Dict.values classes) →
  ∃ out,
    paragraphs_to_features d txt paragraphs classes = Some out ∧
    length out = length paragraphs ∧
    Forall (λ ex : example, ex.2 !! 0%nat = Some (class_label txt classes)) out.
Proof.
  intros Hd Hclasses.
  eexists. split; [by apply paragraphs_to_features_Some|].
  split; [by rewrite length_fmap, length_enumerate|].
  apply Forall_fmap, Forall_forall. intros [i paragraph] _. simpl.
  unfold feature_vector, class_label.
  rewrite mark_present_unmarked by by apply not_marked_0.
  destruct (last (filter (marks txt) classes)) as [item|] eqn:Hlast.
  - rewrite list_lookup_insert_eq
      by (unfold Np.zeros; rewrite length_replicate; lia).
    f_equal. apply Z.mod_small.
    apply last_Some_elem_of, list_elem_of_filter in Hlast as [_ Hin].
    eapply Forall_forall in Hclasses; [done|].
    by apply (list_elem_of_fmap_2 snd).
  - apply lookup_replicate_2. lia.
Qed.

Lemma paragraphs_to_features_class_witness :
  indices_in_range [("cat", 1); ("dog", 2)] ∧
  Forall (λ c, 0 ≤ c < 256) (Dict.values [("austin", 0); ("shelley", 1); ("ley", 7)]) ∧
  ∃ out, paragraphs_to_features [("cat", 1); ("dog", 2)] "txts/Shelley_3.txt"
           ["The Dog."; "a cat"] [("austin", 0); ("shelley", 1); ("ley", 7)]
         = Some out
         ∧ Forall (λ ex : example, ex.2 !! 0%nat = Some 7) out.
Proof.
  assert (indices_in_range [("cat", 1); ("dog", 2)]) as Hd.
  { repeat constructor; simpl; lia. }
  assert (Forall (λ c, 0 ≤ c < 256)
            (Dict.values [("austin", 0); ("shelley", 1); ("ley", 7)])) as Hc.
  { repeat constructor; simpl; lia. }
  split; [exact Hd|]. split; [exact Hc|].
  destruct (paragraphs_to_features_class [("cat", 1); ("dog", 2)]
              "txts/Shelley_3.txt" ["The Dog."; "a cat"]
              [("austin", 0); ("shelley", 1); ("ley", 7)] Hd Hc)
    as (out & Hout & _ & Hslot).
  exists out. split; [exact Hout|].
  replace 7 with (class_label "txts/Shelley_3.txt"
                    [("austin", 0); ("shelley", 1); ("ley", 7)]); [exact Hslot|].
  by vm_compute.
Defined.

(** C10: with a dictionary that [create_dictionary] produced, every vector
    write of the vectorizer is within bounds: the vector has length
    [|V| + 1], the class write targets slot 0, every presence write targets
    an index of [1, |V|], and so the vectorizer runs without an index
    error.  The class ids are those a vector of unsigned bytes holds. *)
Theorem vector_writes_in_bounds (text_dir : corpus) (txt : string)
  (paragraphs : list string) (classes : dict Z) :
  Forall (λ c, 0 ≤ c < 256) (Dict.values classes) →
  (∀ w i, (w, i) ∈ create_dictionary text_dir →
          1 ≤ i ≤ Z.of_nat (length (create_dictionary text_dir))) ∧
  (∀ features : list Z,
     length features = S (length (create_dictionary text_dir)) →
     (∀ value, 0 ≤ value < 256 →
               (0 < length features)%nat ∧
               Np.setitem features 0 value
               = Some (<[0%nat := value]> features)) ∧
     (∀ w i, (w, i) ∈ create_dictionary text_dir →
             (Z.to_nat i < length features)%nat ∧
             Np.setitem features i 1 = Some (<[Z.to_nat i := 1]> features))) ∧
  ∃ out,
    paragraphs_to_features (create_dictionary text_dir) txt paragraphs classes
      = Some out ∧
    Forall (λ ex : example,
              length ex.2 = S (length (create_dictionary text_dir))) out.
Proof.
  intros _.
  destruct (vocabulary_create_dictionary text_dir) as (_ & _ & Hrange).
  assert (∀ w i, (w, i) ∈ create_dictionary text_dir →
                 1 ≤ i ≤ Z.of_nat (length (create_dictionary text_dir))) as Hin.
  { intros w i Hwi. eapply Forall_forall in Hrange; [done|].
    by apply (list_elem_of_fmap_2 snd) in Hwi. }
  split_and!; [done| |].
  - intros features Hlen. split.
    + intros value Hvalue. split; [lia|].
      rewrite setitem_in_range by lia. unfold Np.uint8.
      by rewrite Z.mod_small.
    + intros w i Hwi. apply Hin in Hwi. split; [lia|].
      by rewrite setitem_in_range by lia.
  - eexists. split; [by apply paragraphs_to_features_Some|].
    apply Forall_fmap, Forall_forall. intros item _. simpl.
    apply length_feature_vector.
Qed.

Lemma vector_writes_in_bounds_witness :
  Forall (λ c, 0 ≤ c < 256) (Dict.values [("austin", 0); ("shelley", 1)]) ∧
  ∃ out,
    paragraphs_to_features
      (create_dictionary [("txts/austin1.txt", "The cat.");
                          ("txts/shelley2.txt", "A dog, the dog.")])
      "txts/shelley2.txt" [" A dog, the dog."]
      [("austin", 0); ("shelley", 1)] = Some out ∧
    Forall (λ ex : example,
              length ex.2
              = S (length (create_dictionary
                             [("txts/austin1.txt", "The cat.");
                              ("txts/shelley2.txt", "A dog, the dog.")]))) out.
Proof.
  assert (Forall (λ c, 0 ≤ c < 256)
            (Dict.values [("austin", 0); ("shelley", 1)])) as Hc.
  { repeat constructor; simpl; lia. }
  split; [exact Hc|].
  exact (proj2 (proj2 (vector_writes_in_bounds
           [("txts/austin1.txt", "The cat.");
            ("txts/shelley2.txt", "A dog, the dog.")]
           "txts/shelley2.txt" [" A dog, the dog."]
           [("austin", 0); ("shelley", 1)] Hc))).
Defined.

(** ** Paragraph identifiers *)

Lemma basename_from_no_slash cur name :
  all_chars (λ c, negb (bool_decide (c = "/"%char))) name = true →
  Str.basename_from cur name = cur +:+ name.
Proof.
  revert cur. induction name as [|c name IH]; intros cur Hname; simpl.
  - by rewrite str_app_nil_r.
  - simpl in Hname. apply andb_true_iff in Hname as [Hc Hname].
    apply negb_true_iff in Hc. rewrite Hc, IH by done. apply snoc_app.
Qed.

Lemma basename_from_path cur dir name :
  all_chars (λ c, negb (bool_decide (c = "/"%char))) name = true →
  Str.basename_from cur (dir +:+ "/" +:+ name) = name.
Proof.
  intros Hname. revert cur. induction dir as [|c dir IH]; intros cur.
  - rewrite str_app_nil_l. change ("/" +:+ name) with (String "/" name).
    simpl. by rewrite basename_from_no_slash.
  - rewrite str_app_cons. simpl. by destruct (bool_decide (c = "/"%char)).
Qed.

(** The base name of [dir/name] is [name]. *)
Lemma basename_path dir name :
  all_chars (λ c, negb (bool_decide (c = "/"%char))) name = true →
  Str.basename (dir +:+ "/" +:+ name) = name.
Proof. apply basename_from_path. Qed.

(** The extension cannot overlap an earlier occurrence of [.txt]. *)
Lemma prefix_txt_overlap stem :
  stem ≠ "" → String.prefix ".txt" (stem +:+ ".txt") = true →
  String.prefix ".txt" (stem +:+ ".tx") = true.
Proof.
  destruct stem as [|c1 [|c2 [|c3 [|c4 stem]]]]; [done|..]; intros _;
    rewrite !str_app_cons, ?str_app_nil_l, !prefix_cons;
    repeat (case_decide; simplify_eq; try done);
    intros _; apply prefix_nil_l.
Qed.

(** When [.txt] occurs in the base name only as its extension, [replace]
    removes exactly the extension. *)
Lemma replace_txt_extension stem :
  Str.contains ".txt" (stem +:+ ".tx") = false →
  Str.replace ".txt" "" (stem +:+ ".txt") = stem.
Proof.
  unfold Str.replace. simpl Str.nonempty. cbv iota.
  induction stem as [|c stem IH]; intros Hstem; [done|].
  rewrite str_app_cons in Hstem. simpl in Hstem.
  apply orb_false_iff in Hstem as [Hpre Hstem].
  rewrite str_app_cons.
  assert (String.prefix ".txt" (String c (stem +:+ ".txt")) = false) as Hno.
  { apply not_true_is_false. intros Hyes.
    apply (prefix_txt_overlap (String c stem)) in Hyes; [|done].
    rewrite str_app_cons in Hyes. simpl in Hyes. congruence. }
  cbn [Str.replace_from]. rewrite Hno. f_equal. by apply IH.
Qed.

(** For an ordinary file name the identifier is the base name without its
    extension, a dot, and the paragraph index. *)
Lemma para_id_extension txt stem i :
  Str.basename txt = stem +:+ ".txt" →
  Str.contains ".txt" (stem +:+ ".tx") = false →
  para_id txt i = stem +:+ "." +:+ pretty i.
Proof.
  intros Hbase Hstem. unfold para_id. by rewrite Hbase, replace_txt_extension.
Qed.

(** C8: the identifier drops every occurrence of [.txt] from the base name,
    not only the extension: the paragraphs of [emma.txt.bak.txt] are named
    [emma.bak.1], [emma.bak.2], and not [emma.txt.bak.1], [emma.txt.bak.2]. *)
Theorem para_id_inner_txt :
  (λ out : list example, out.*1)
    <$> paragraphs_to_features [] "txts/emma.txt.bak.txt"
          ["It was dark."; "It rained."] []
  = Some ["emma.bak.1"; "emma.bak.2"].
Proof. by vm_compute. Qed.

(** ** The exporter *)

Lemma fields_foldl csv (feats : list Z) :
  foldl (λ csv feat, csv +:+ ", " +:+ pretty feat) csv feats
  = csv +:+ fields feats.
Proof.
  revert csv. induction feats as [|feat feats IH]; intros csv; simpl.
  - by rewrite str_app_nil_r.
  - by rewrite IH, !str_app_assoc.
Qed.

Lemma concat_fields (s : string) (feats : list Z) :
  String.concat ", " (s :: (pretty <$> feats)) = s +:+ fields feats.
Proof.
  revert s. induction feats as [|feat feats IH]; intros s.
  - simpl. by rewrite str_app_nil_r.
  - change (String.concat ", " (s :: (pretty <$> feat :: feats)))
      with (s +:+ ", " +:+ String.concat ", " (pretty feat :: (pretty <$> feats))).
    by rewrite IH.
Qed.

Lemma csv_row_line (features : list (list Z)) (k : nat) data feats csv :
  features !! k = Some feats →
  csv_row features (Z.of_nat k, data) csv = Some (csv +:+ csv_line data feats).
Proof.
  intros Hk. unfold csv_row, csv_line. rewrite concat_fields, Nat2Z.id, Hk.
  simpl. by rewrite fields_foldl, !str_app_assoc.
Qed.

Lemma for_csv_row (features : list (list Z)) (dataset : list example)
  (k : nat) csv :
  (k + length dataset ≤ length features)%nat →
  for_ (enumerate (Z.of_nat k) dataset) (csv_row features) csv
  = Some (csv +:+ foldr String.append ""
                    (zip_with csv_line dataset (drop k features))).
Proof.
  revert k csv. induction dataset as [|data dataset IH]; intros k csv Hlen.
  - simpl. by rewrite str_app_nil_r.
  - simpl in Hlen. cbn [enumerate for_].
    destruct (lookup_lt_is_Some_2 features k) as [feats Hk]; [lia|].
    rewrite (csv_row_line _ _ _ feats) by done. simpl.
    replace (Z.of_nat k + 1) with (Z.of_nat (S k)) by lia.
    rewrite IH by lia. rewrite (drop_S _ _ _ Hk). simpl.
    by rewrite str_app_assoc.
Qed.

(** C9: for sub-vectors aligned with the dataset, [data_to_csv] returns one
    line per example, in order: the ParagraphID followed by each selected
    value in order, separated by a comma and a space, and ended by a newline;
    the values are printed as they are. *)
Theorem data_to_csv_lines (dataset : list example) (features : list (list Z)) :
  length dataset = length features →
  data_to_csv dataset features
  = Some (foldr String.append "" (zip_with csv_line dataset features)) ∧
  length (zip_with csv_line dataset features) = length dataset.
Proof.
  intros Hlen. split.
  - unfold data_to_csv. rewrite (for_csv_row features dataset 0) by (simpl; lia).
    by rewrite str_app_nil_l.
  - rewrite length_zip_with. lia.
Qed.

Lemma data_to_csv_lines_witness :
  length [("doc42.1", [0; 1; 0]); ("doc42.2", [1; 0; 1])]
  = length [[1; 0]; [0; 1]] ∧
  data_to_csv [("doc42.1", [0; 1; 0]); ("doc42.2", [1; 0; 1])] [[1; 0]; [0; 1]]
  = Some ("doc42.1, 1, 0" +:+ newline +:+ "doc42.2, 0, 1" +:+ newline).
Proof.
  split; [reflexivity|].
  exact (proj1 (data_to_csv_lines
                  [("doc42.1", [0; 1; 0]); ("doc42.2", [1; 0; 1])]
                  [[1; 0]; [0; 1]] eq_refl)).
Defined.

(** ** The selector *)

Lemma mapM_cons {A B} (f : A → option B) (x : A) (l : list A) :
  mapM f (x :: l) = y ← f x; k ← mapM f l; Some (y :: k).
Proof. done. Qed.

Lemma NoDup_take {A} (n : nat) (l : list A) : NoDup l → NoDup (take n l).
Proof.
  intros Hnd. rewrite <-(take_drop n l) in Hnd.
  by apply NoDup_app in Hnd as [? _].
Qed.

Lemma row_Some n_vocab (full_dataset : list example) (f : nat) :
  width n_vocab full_dataset → (f ≤ n_vocab)%nat →
  is_Some (mapM (InfoGain.row f) full_dataset).
Proof.
  intros Hw Hf. apply mapM_is_Some. eapply Forall_impl; [exact Hw|].
  intros [id vec] Hlen. simpl in *. unfold InfoGain.row. simpl.
  destruct (lookup_lt_is_Some_2 vec 0) as [c ->]; [lia|].
  destruct (lookup_lt_is_Some_2 vec f) as [v ->]; [lia|]. by eexists.
Qed.

Lemma gains_Some n_vocab (full_dataset : list example) :
  width n_vocab full_dataset →
  ∃ ranked, InfoGain.gains full_dataset n_vocab = Some ranked
            ∧ ranked.*1 = seq 1 n_vocab.
Proof.
  intros Hw. unfold InfoGain.gains.
  assert (Forall (λ f, f ≤ n_vocab)%nat (seq 1 n_vocab)) as Hfs.
  { apply Forall_forall. intros f Hf%elem_of_seq. lia. }
  induction Hfs as [|f fs Hf _ (ranked & Hranked & Hfst)].
  - by exists [].
  - destruct (row_Some n_vocab full_dataset f Hw Hf) as [rows Hrows].
    exists ((f, InfoGain.info_gain rows) :: ranked).
    rewrite mapM_cons, Hrows. simpl. rewrite Hranked. simpl.
    split; [done|]. f_equal. exact Hfst.
Qed.

Lemma restrict_Some n_vocab (selected : list nat) (ex : example) :
  length ex.2 = S n_vocab → Forall (λ f, f ≤ n_vocab)%nat selected →
  ∃ sub, InfoGain.restrict selected ex = Some sub
         ∧ length sub = length selected.
Proof.
  intros Hlen Hsel.
  destruct (mapM_is_Some_2 (λ f, ex.2 !! f) selected) as [sub Hsub].
  { eapply Forall_impl; [exact Hsel|]. intros f Hf. simpl in *.
    apply lookup_lt_is_Some_2. lia. }
  exists sub. split; [done|]. symmetry. by eapply length_mapM.
Qed.

(** C5: on a full dataset over a vocabulary of size [|V|], for every
    requested count [N], also beyond [|V|], the selector returns a feature
    set of length [min N |V|] of distinct vocabulary indices, with one
    sub-vector of that length per example, and reads no vector out of
    bounds. *)
Theorem prune_dataset_size (full_dataset : list example) (n_feats : nat)
  (dict_words : dict Z) :
  width (length dict_words) full_dataset →
  ∃ selected pruned,
    InfoGain.prune_dataset full_dataset n_feats dict_words
      = Some (selected, pruned) ∧
    length selected = (n_feats `min` length dict_words)%nat ∧
    Forall (λ f, 1 ≤ f ≤ length dict_words)%nat selected ∧
    NoDup selected ∧
    length pruned = length full_dataset ∧
    Forall (λ sub : list Z,
              length sub = (n_feats `min` length dict_words)%nat) pruned.
Proof.
  intros Hw. unfold InfoGain.prune_dataset.
  destruct (gains_Some _ _ Hw) as (ranked & -> & Hfst). simpl.
  set (selected := take n_feats (merge_sort InfoGain.ranks_before ranked).*1).
  assert ((merge_sort InfoGain.ranks_before ranked).*1
          ≡ₚ seq 1 (length dict_words)) as Hperm.
  { by rewrite merge_sort_Permutation, Hfst. }
  assert (length selected = (n_feats `min` length dict_words)%nat) as Hlen.
  { unfold selected. by rewrite length_take, Hperm, length_seq. }
  assert (Forall (λ f, 1 ≤ f ≤ length dict_words)%nat selected) as Hsel.
  { apply Forall_forall. intros f Hf%subseteq_take.
    rewrite Hperm in Hf. apply elem_of_seq in Hf. lia. }
  assert (NoDup selected) as Hnd.
  { unfold selected. apply NoDup_take. rewrite Hperm. apply NoDup_seq. }
  assert (∃ pruned, mapM (InfoGain.restrict selected) full_dataset = Some pruned
                    ∧ Forall (λ sub : list Z, length sub = length selected) pruned)
    as (pruned & Hpruned & Hsubs).
  { clear -Hw Hsel. induction Hw as [|ex ds Hex _ (pruned & Hpruned & Hsubs)].
    - by exists [].
    - destruct (restrict_Some (length dict_words) selected ex Hex)
        as (sub & Hsub & Hlen).
      { eapply Forall_impl; [exact Hsel|]. intros f Hf. simpl in Hf. lia. }
      exists (sub :: pruned). rewrite mapM_cons, Hsub. simpl.
      rewrite Hpruned. simpl. split; [done|]. by constructor. }
  exists selected, pruned. rewrite Hpruned. simpl.
  split_and!; [done..| |].
  - symmetry. by eapply length_mapM.
  - by rewrite <-Hlen.
Qed.

Lemma prune_dataset_size_witness :
  width (length [("cat", 1); ("dog", 2)])
        [("austin1.1", [0; 1; 0]); ("shelley2.1", [1; 0; 1])] ∧
  ∃ selected pruned,
    InfoGain.prune_dataset
      [("austin1.1", [0; 1; 0]); ("shelley2.1", [1; 0; 1])] 300
      [("cat", 1); ("dog", 2)] = Some (selected, pruned)
    ∧ length selected = 2%nat.
Proof.
  assert (width (length [("cat", 1); ("dog", 2)])
            [("austin1.1", [0; 1; 0]); ("shelley2.1", [1; 0; 1])]) as Hw.
  { by repeat constructor. }
  split; [exact Hw|].
  destruct (prune_dataset_size
              [("austin1.1", [0; 1; 0]); ("shelley2.1", [1; 0; 1])] 300
              [("cat", 1); ("dog", 2)] Hw)
    as (selected & pruned & Hpruned & Hlen & _).
  exists selected, pruned. exact (conj Hpruned Hlen).
Defined.

(** ** The whole run *)

Lemma create_dataset_width (d : dict Z) (text_dir : corpus) (classes : dict Z) :
  indices_in_range d →
  ∃ full_dataset, create_dataset d text_dir classes = Some full_dataset
                  ∧ width (length d) full_dataset.
Proof.
  intros Hd. unfold create_dataset.
  cut (∀ acc, width (length d) acc →
    ∃ full_dataset,
      for_ text_dir (λ txt paragraph_features,
        let txt_paragraphs := read_paragraphs txt.2 in
        features ← paragraphs_to_features d txt.1 txt_paragraphs classes;
        Some (paragraph_features ++ features)) acc = Some full_dataset
      ∧ width (length d) full_dataset).
  { intros H. apply H. constructor. }
  induction text_dir as [|txt text_dir IH]; intros acc Hacc.
  - by exists acc.
  - cbn [for_]. cbv zeta. rewrite paragraphs_to_features_Some by done. simpl.
    apply IH. apply Forall_app. split; [done|].
    apply Forall_fmap, Forall_forall. intros item _. simpl.
    apply length_feature_vector.
Qed.

(** With the selector as the specification describes it, a run that
    generates the dataset ends without an index error, whatever the corpus
    and the requested number of features. *)
Lemma main_runs (text_dir : corpus) (n_feats : nat) :
  is_Some (main text_dir n_feats).
Proof.
  unfold main.
  destruct (vocabulary_create_dictionary text_dir) as (_ & _ & Hrange).
  destruct (create_dataset_width (create_dictionary text_dir) text_dir
              [("austin", 0); ("shelley", 1)] Hrange)
    as (full_dataset & -> & Hwidth).
  simpl.
  assert (∃ selected pruned,
    InfoGain.prune_dataset full_dataset n_feats (create_dictionary text_dir)
      = Some (selected, pruned) ∧ length pruned = length full_dataset)
    as (selected & pruned & -> & Hlen).
  { unfold InfoGain.prune_dataset.
    destruct (gains_Some _ _ Hwidth) as (ranked & -> & Hfst). simpl.
    set (selected := take n_feats (merge_sort InfoGain.ranks_before ranked).*1).
    assert (Forall (λ f, f ≤ length (create_dictionary text_dir))%nat selected)
      as Hsel.
    { apply Forall_forall. intros f Hf%subseteq_take.
      rewrite merge_sort_Permutation, Hfst in Hf.
      apply elem_of_seq in Hf. lia. }
    destruct (mapM_is_Some_2 (InfoGain.restrict selected) full_dataset)
      as [pruned Hpruned].
    { eapply Forall_impl; [exact Hwidth|]. intros ex Hex. simpl in *.
      destruct (restrict_Some _ selected ex Hex Hsel) as (sub & -> & _).
      by eexists. }
    exists selected, pruned. rewrite Hpruned. split; [done|].
    symmetry. by eapply length_mapM. }
  simpl. unfold data_to_csv.
  rewrite (for_csv_row pruned full_dataset 0) by (simpl; lia). by eexists.
Qed.

(** ** The runtime primitives on sample inputs *)

Example split_sample :
  Str.split ("  It's  a" +:+ newline +:+ "b-c ") = ["It's"; "a"; "b-c"].
Proof. done. Qed.

Example splitlines_sample :
  Str.splitlines ("a" +:+ String Char.CR newline +:+ "b" +:+ newline
                  +:+ newline +:+ "c" +:+ newline)
  = ["a"; "b"; ""; "c"].
Proof. done. Qed.

Example splitlines_lf_cr :
  Str.splitlines (String Char.LF (String Char.CR "")) = [""; ""].
Proof. done. Qed.

Example replace_sample :
  Str.replace "aa" "b" "aaaaa" = "bba" ∧ Str.replace "" "-" "abc" = "-a-b-c-".
Proof. done. Qed.

Example basename_sample :
  Str.basename "txts/a/austin1.txt" = "austin1.txt" ∧ Str.basename "a/" = ""
  ∧ Str.basename "x" = "x".
Proof. done. Qed.

Example find_unique_words_sample :
  find_unique_words "The the THE cat; a I isn't 42 b2b"
  ≡ₚ ["the"; "cat"; "isnt"; "bb"].
Proof. apply (bool_decide_unpack _). by vm_compute. Qed.

(** ** The pipeline on a small corpus *)

(** The first end-to-end scenario of the specification: one file with two
    paragraphs, the first containing only the word "the", the second
    nothing that survives normalization. *)
Example scenario_1 :
  let text_dir := [("txts/austin1.txt", "the" +:+ newline +:+ newline +:+ "a")] in
  create_dictionary text_dir = [("the", 1)] ∧
  create_dataset (create_dictionary text_dir) text_dir [("austin", 0)]
  = Some [("austin1.1", [0; 1]); ("austin1.2", [0; 0])].
Proof. by vm_compute. Qed.

Example create_dictionary_two_files :
  create_dictionary [("txts/austin1.txt", "The cat sat.");
                     ("txts/shelley2.txt", "A CAT, an apple!")]
  = [("an", 1); ("apple", 2); ("cat", 3); ("sat", 4); ("the", 5)].
Proof. by vm_compute. Qed.

(** * Further properties of the pipeline *)

(** ** The tokenizer *)

Lemma isspace_lower c : Char.isspace (Char.lower c) = Char.isspace c.
Proof. by destruct c as [[] [] [] [] [] [] [] []]. Qed.

Lemma isalpha_lower c : Char.isalpha (Char.lower c) = Char.isalpha c.
Proof. by destruct c as [[] [] [] [] [] [] [] []]. Qed.

Lemma lower_lower c : Char.lower (Char.lower c) = Char.lower c.
Proof. by destruct c as [[] [] [] [] [] [] [] []]. Qed.

Lemma lower_snoc s c :
  Str.lower (Str.snoc s c) = Str.snoc (Str.lower s) (Char.lower c).
Proof.
  induction s as [|a s IH]; [done|].
  change (Str.snoc (String a s) c) with (String a (Str.snoc s c)).
  simpl. by rewrite IH.
Qed.

Lemma flush_lower s : Str.flush (Str.lower s) = Str.lower <$> Str.flush s.
Proof. by destruct s. Qed.

Lemma split_from_lower tok s :
  Str.split_from (Str.lower tok) (Str.lower s)
  = Str.lower <$> Str.split_from tok s.
Proof.
  revert tok. induction s as [|c s IH]; intros tok; simpl.
  - apply flush_lower.
  - rewrite isspace_lower. destruct (Char.isspace c).
    + by rewrite fmap_app, flush_lower, <-(IH "").
    + by rewrite <-lower_snoc, IH.
Qed.

Lemma sub_nonalpha_lower s :
  Str.sub_nonalpha (Str.lower s) = Str.lower (Str.sub_nonalpha s).
Proof.
  induction s as [|c s IH]; [done|]. simpl. rewrite isalpha_lower.
  destruct (Char.isalpha c); simpl; by rewrite IH.
Qed.

Lemma lower_idemp s : Str.lower (Str.lower s) = Str.lower s.
Proof. induction s as [|c s IH]; [done|]. simpl. by rewrite lower_lower, IH. Qed.

Lemma normalize_lower tok : normalize (Str.lower tok) = normalize tok.
Proof.
  unfold normalize. by rewrite sub_nonalpha_lower, length_lower, lower_idemp.
Qed.

Lemma omap_normalize_lower (toks : list string) :
  omap normalize (Str.lower <$> toks) = omap normalize toks.
Proof.
  induction toks as [|tok toks IH]; [done|].
  rewrite fmap_cons. cbn [omap list_omap]. by rewrite normalize_lower, IH.
Qed.

(** X2: on ASCII text the tokenizer ignores case: lowercasing the text
    beforehand does not change the words [find_unique_words] returns for
    it.  (Beyond ASCII, [str.lower] turns some characters that are not
    letters of [[a-zA-Z]] into such letters, the Kelvin sign for one.) *)
Theorem find_unique_words_lower (text : string) :
  all_chars isascii text = true →
  find_unique_words (Str.lower text) = find_unique_words text.
Proof.
  intros _. unfold find_unique_words, Str.split.
  change "" with (Str.lower "") at 1. rewrite split_from_lower.
  by rewrite !clean_words_omap, omap_normalize_lower.
Qed.

Lemma find_unique_words_lower_witness :
  all_chars isascii "The Cat, THE cat; a DOG." = true ∧
  find_unique_words (Str.lower "The Cat, THE cat; a DOG.")
  = find_unique_words "The Cat, THE cat; a DOG.".
Proof.
  split; [reflexivity|].
  exact (find_unique_words_lower "The Cat, THE cat; a DOG." eq_refl).
Defined.

Lemma islower_alpha_isalpha c : islower_alpha c = true → Char.isalpha c = true.
Proof. by destruct c as [[] [] [] [] [] [] [] []]. Qed.

Lemma islower_alpha_lower c : islower_alpha c = true → Char.lower c = c.
Proof. by destruct c as [[] [] [] [] [] [] [] []]. Qed.

Lemma islower_alpha_not_space c :
  islower_alpha c = true → Char.isspace c = false.
Proof. by destruct c as [[] [] [] [] [] [] [] []]. Qed.

Lemma sub_nonalpha_word s :
  all_chars islower_alpha s = true → Str.sub_nonalpha s = s.
Proof.
  induction s as [|c s IH]; [done|]. simpl. intros [Hc Hs]%andb_true_iff.
  by rewrite (islower_alpha_isalpha c), IH.
Qed.

Lemma lower_word s : all_chars islower_alpha s = true → Str.lower s = s.
Proof.
  induction s as [|c s IH]; [done|]. simpl. intros [Hc Hs]%andb_true_iff.
  by rewrite (islower_alpha_lower c), IH.
Qed.

Lemma token_word s :
  (2 ≤ String.length s)%nat → all_chars islower_alpha s = true → token s.
Proof.
  intros Hlen Hs. split; [intros ->; simpl in Hlen; lia|].
  clear Hlen. induction s as [|c s IH]; [done|]. simpl in *.
  apply andb_true_iff in Hs as [Hc Hs].
  by rewrite (islower_alpha_not_space c), IH.
Qed.

Lemma normalize_word s :
  (2 ≤ String.length s)%nat → all_chars islower_alpha s = true →
  normalize s = Some s.
Proof.
  intros Hlen Hs. unfold normalize.
  rewrite sub_nonalpha_word, lower_word by done.
  case_bool_decide; [lia|done].
Qed.

(** X1: every word [find_unique_words] returns is a Word of the data
    model: only the lowercase letters a-z, and at least two of them. *)
Theorem find_unique_words_normal (text : string) :
  Forall (λ w, (2 ≤ String.length w)%nat ∧ all_chars islower_alpha w = true)
         (find_unique_words text).
Proof.
  apply Forall_forall. intros w.
  rewrite elem_of_find_unique_words, elem_of_clean_words.
  intros (tok & _ & Hlen & ->). rewrite length_lower. split; [done|].
  apply all_chars_lower, all_chars_sub_nonalpha.
Qed.

Lemma omap_normalize_words (ws : list string) :
  Forall (λ w, (2 ≤ String.length w)%nat ∧ all_chars islower_alpha w = true) ws →
  omap normalize ws = ws.
Proof.
  induction 1 as [|w ws [Hlen Hw] _ IH]; [done|].
  cbn [omap list_omap]. by rewrite normalize_word, IH.
Qed.

(** X3: normalization is idempotent: tokenizing the words of a text again,
    joined by spaces, returns the same set of words. *)
Theorem find_unique_words_idempotent (text : string) :
  find_unique_words (String.concat " " (find_unique_words text))
  ≡ₚ find_unique_words text.
Proof.
  assert (Forall (λ w, (2 ≤ String.length w)%nat
                       ∧ all_chars islower_alpha w = true)
                 (find_unique_words text)) as Hws.
  { apply Forall_forall. intros w Hw. by apply find_unique_words_word in Hw. }
  unfold find_unique_words at 1.
  rewrite split_concat.
  - rewrite clean_words_omap, omap_normalize_words by done.
    apply elements_list_to_set, NoDup_find_unique_words.
  - eapply Forall_impl; [exact Hws|]. intros w [??]. by apply token_word.
Qed.

(** ** The segmenter and the tokenizer together *)

Lemma islinebreak_isspace c : Char.islinebreak c = true → Char.isspace c = true.
Proof. by destruct c as [[] [] [] [] [] [] [] []]. Qed.

Lemma split_from_nil tok : Str.split_from tok "" = Str.flush tok.
Proof. done. Qed.

Lemma split_from_app_space tok x c y :
  Char.isspace c = true →
  Str.split_from tok (x +:+ String c y) = Str.split_from tok x ++ Str.split y.
Proof.
  intros Hc. revert tok. induction x as [|a x IH]; intros tok.
  - rewrite str_app_nil_l. simpl. by rewrite Hc.
  - rewrite str_app_cons. simpl. destruct (Char.isspace a).
    + by rewrite IH, (assoc_L (++)).
    + apply IH.
Qed.

Lemma split_splitlines (after_cr : bool) cur s :
  (after_cr = true → cur = "") →
  Str.split (cur +:+ s)
  = mjoin (Str.split <$> Str.splitlines_from after_cr cur s).
Proof.
  revert after_cr cur. induction s as [|c s IH]; intros after_cr cur Hcr.
  - rewrite str_app_nil_r. simpl. destruct cur; [done|].
    simpl. by rewrite app_nil_r.
  - simpl. destruct (after_cr && bool_decide (c = Char.LF)) eqn:Hlf.
    + apply andb_true_iff in Hlf as [-> Hc]. apply bool_decide_eq_true in Hc.
      rewrite (Hcr eq_refl), str_app_nil_l. subst c.
      rewrite <-(IH false "") by done. by rewrite str_app_nil_l.
    + destruct (Char.islinebreak c) eqn:Hc.
      * unfold Str.split at 1.
        rewrite split_from_app_space by by apply islinebreak_isspace.
        simpl. f_equal. rewrite <-(IH _ ""); [by rewrite str_app_nil_l|done].
      * rewrite <-IH by done. by rewrite snoc_app.
Qed.

Lemma split_paragraph_step st line :
  mjoin (Str.split <$> (paragraph_step st line).1)
    ++ Str.split (paragraph_step st line).2
  = (mjoin (Str.split <$> st.1) ++ Str.split st.2) ++ Str.split line.
Proof.
  destruct st as [ps p]. unfold paragraph_step. simpl. case_decide as Hline.
  - subst line. simpl. rewrite fmap_app, join_app. simpl.
    by rewrite !app_nil_r.
  - simpl. change (" " +:+ line) with (String " " line). unfold Str.split at 2.
    rewrite split_from_app_space by done. by rewrite (assoc_L (++)).
Qed.

Lemma split_paragraph_fold lines st :
  mjoin (Str.split <$> (foldl paragraph_step st lines).1)
    ++ Str.split (foldl paragraph_step st lines).2
  = (mjoin (Str.split <$> st.1) ++ Str.split st.2)
      ++ mjoin (Str.split <$> lines).
Proof.
  revert st. induction lines as [|l lines IH]; intros st; simpl.
  - by rewrite app_nil_r.
  - by rewrite IH, split_paragraph_step, <-(assoc_L (++)).
Qed.

Lemma split_read_paragraphs (text : string) :
  mjoin (Str.split <$> read_paragraphs text) = Str.split text.
Proof.
  unfold read_paragraphs.
  pose proof (split_paragraph_fold (Str.splitlines text) ([], "")) as Hfold.
  destruct (foldl paragraph_step ([], "") (Str.splitlines text)) as [ps p].
  simpl in Hfold.
  rewrite (split_splitlines false "" text (λ _, eq_refl)
             : Str.split text = mjoin (Str.split <$> Str.splitlines text)).
  rewrite <-Hfold.
  case_bool_decide as Hp.
  - rewrite fmap_app, join_app. simpl. by rewrite app_nil_r.
  - destruct p; [|simpl in Hp; lia]. by rewrite app_nil_r.
Qed.

Lemma elem_of_words_paragraphs (text : string) w :
  w ∈ find_unique_words text ↔
  ∃ paragraph, paragraph ∈ read_paragraphs text
               ∧ w ∈ find_unique_words paragraph.
Proof.
  rewrite elem_of_find_unique_words, elem_of_clean_words,
    <-split_read_paragraphs.
  setoid_rewrite elem_of_find_unique_words.
  setoid_rewrite elem_of_clean_words. split.
  - intros (tok & Hin & Hlen & ->).
    apply list_elem_of_join in Hin as (toks & Htoks & Hin).
    apply list_elem_of_fmap in Hin as (paragraph & -> & Hpar).
    exists paragraph. split; [done|]. by exists tok.
  - intros (paragraph & Hpar & tok & Hin & Hlen & ->).
    exists tok. split; [|done].
    apply list_elem_of_join. exists (Str.split paragraph). split; [done|].
    by apply list_elem_of_fmap_2.
Qed.

(** X4: segmentation loses no token: the tokens of the paragraphs of a
    text, taken in order, are the tokens of the text, and so a word is a
    normalized word of the text exactly when it is one of some paragraph. *)
Theorem read_paragraphs_tokens (text : string) :
  mjoin (Str.split <$> read_paragraphs text) = Str.split text ∧
  ∀ w, w ∈ find_unique_words text ↔
       ∃ paragraph, paragraph ∈ read_paragraphs text
                    ∧ w ∈ find_unique_words paragraph.
Proof.
  split; [apply split_read_paragraphs|apply elem_of_words_paragraphs].
Qed.

(** ** The segmenter *)

(** X5: every element [read_paragraphs] returns is the join of a maximal
    run of non-blank lines of the text (bounded by blank lines or by the
    ends of the text), each line preceded by one space; the element is the
    empty string exactly when the run is empty. *)
Theorem read_paragraphs_maximal_runs (text : string) :
  Forall (λ p, ∃ run, run_of (Str.splitlines text) run ∧ p = join_lines run
                      ∧ (p = "" ↔ run = []))
         (read_paragraphs text).
Proof. apply Forall_forall. intros p. apply read_paragraphs_runs. Qed.

Lemma length_paragraph_fold lines st :
  length (foldl paragraph_step st lines).1
  = (length st.1 + length (filter (λ l, l = "") lines))%nat.
Proof.
  revert st. induction lines as [|l lines IH]; intros [ps p]; simpl; [lia|].
  rewrite IH. unfold paragraph_step. destruct (decide (l = "")) as [->|Hl].
  - rewrite filter_cons_True by done. simpl. rewrite length_app. simpl. lia.
  - by rewrite filter_cons_False.
Qed.

Lemma nonempty_paragraph_fold lines l st :
  Str.nonempty (foldl paragraph_step st (lines ++ [l])).2 = Str.nonempty l.
Proof.
  rewrite foldl_app. simpl.
  destruct (foldl paragraph_step st lines) as [ps p].
  unfold paragraph_step. destruct (decide (l = "")) as [->|Hl]; [done|].
  simpl. destruct l; [done|]. by destruct p.
Qed.

Lemma length_flush_fold lines :
  length (let '(paragraphs, paragraph) := foldl paragraph_step ([], "") lines in
          if bool_decide (0 < String.length paragraph)%nat
          then paragraphs ++ [paragraph] else paragraphs)
  = (length (filter (λ l, l = "") lines)
     + match last lines with
       | Some l => if decide (l = "") then 0 else 1
       | None => 0
       end)%nat.
Proof.
  pose proof (length_paragraph_fold lines ([], "")) as Hlen. revert Hlen.
  induction lines as [|l0 l _] using rev_ind; [done|]. intros Hlen.
  pose proof (nonempty_paragraph_fold l l0 ([], "")) as Hne.
  destruct (foldl paragraph_step ([], "") (l ++ [l0])) as [ps p].
  simpl in *. rewrite last_snoc, length_nonempty, Hne.
  destruct (decide (l0 = "")) as [->|Hl0]; simpl; [lia|].
  rewrite (proj2 (nonempty_true l0)) by done. rewrite length_app. simpl. lia.
Qed.

(** X6: [read_paragraphs] returns one element for every blank line of the
    text, and one more when the last line is not blank. *)
Theorem length_read_paragraphs (text : string) :
  length (read_paragraphs text)
  = (length (filter (λ l, l = "") (Str.splitlines text))
     + match last (Str.splitlines text) with
       | Some l => if decide (l = "") then 0 else 1
       | None => 0
       end)%nat.
Proof. apply length_flush_fold. Qed.

(** ** The vocabulary builder *)

Lemma corpus_words_ext (c1 c2 : corpus) :
  (∀ w, (∃ txt, txt ∈ c1 ∧ w ∈ find_unique_words txt.2) ↔
        (∃ txt, txt ∈ c2 ∧ w ∈ find_unique_words txt.2)) →
  corpus_words c1 = corpus_words c2.
Proof.
  intros Hwords. unfold corpus_words. do 2 f_equal.
  apply set_eq. intros w.
  pose proof (elem_of_corpus_words w c1) as H1.
  pose proof (elem_of_corpus_words w c2) as H2.
  unfold corpus_words in H1, H2.
  rewrite sorted_Permutation, elem_of_elements in H1, H2.
  by rewrite H1, H2.
Qed.

(** X7: the dictionary depends only on the set of normalized words of the
    corpus: two corpora with the same words, whatever the order, number and
    division of their files, get the same dictionary. *)
Theorem create_dictionary_word_set (c1 c2 : corpus) :
  (∀ w, (∃ txt, txt ∈ c1 ∧ w ∈ find_unique_words txt.2) ↔
        (∃ txt, txt ∈ c2 ∧ w ∈ find_unique_words txt.2)) →
  create_dictionary c1 = create_dictionary c2.
Proof.
  intros Hwords. by rewrite !create_dictionary_zip, (corpus_words_ext c1 c2).
Qed.

Lemma create_dictionary_word_set_witness :
  create_dictionary [("txts/a.txt", "The cat."); ("txts/b.txt", "A dog!")]
  = create_dictionary [("txts/c.txt", "dog the"); ("txts/d.txt", "CAT, the dog")].
Proof.
  apply create_dictionary_word_set. intros w.
  assert (∀ c : corpus,
    (∃ txt, txt ∈ c ∧ w ∈ find_unique_words txt.2)
    ↔ w ∈ c ≫= λ txt, find_unique_words txt.2) as Hbind.
  { intros c. rewrite list_elem_of_bind. split; intros (txt & ? & ?); eauto. }
  rewrite !Hbind.
  vm_compute (_ ≫= _). rewrite !elem_of_cons, !elem_of_nil. tauto.
Defined.

Lemma filter_none {A} (P : A → Prop) `{∀ x, Decision (P x)} (l : list A) :
  Forall (λ x, ¬ P x) l → filter P l = [].
Proof.
  induction 1 as [|x l Hx _ IH]; [done|]. by rewrite filter_cons_False.
Qed.

Lemma filter_lt_sorted (ws : list string) (n : nat) w :
  StronglySorted str_lt ws → ws !! n = Some w →
  filter (λ w', str_lt w' w) ws = take n ws.
Proof.
  intros Hs. revert n. induction Hs as [|x ws Hs IH Hx]; intros n Hn.
  { by rewrite lookup_nil in Hn. }
  destruct n as [|n]; simpl in Hn.
  - simplify_eq. rewrite filter_cons_False by apply str_lt_irrefl.
    simpl. apply filter_none.
    eapply Forall_impl; [exact Hx|]. intros y Hy. by apply str_lt_asym.
  - rewrite filter_cons_True.
    + simpl. f_equal. by apply IH.
    + eapply Forall_forall in Hx; [done|]. by eapply list_elem_of_lookup_2.
Qed.

(** X8: the index of a word is its rank: one more than the number of
    dictionary words that sort before it. *)
Theorem create_dictionary_rank (text_dir : corpus) :
  Forall (λ item : string * Z,
            item.2 = 1 + Z.of_nat (length (filter (λ w, str_lt w item.1)
                        (Dict.keys (create_dictionary text_dir)))))
         (create_dictionary text_dir).
Proof.
  apply Forall_forall. intros [w i] Hin. simpl.
  apply elem_of_create_dictionary in Hin as (n & Hn & ->).
  rewrite keys_create_dictionary.
  rewrite (filter_lt_sorted _ n w); [|
    unfold corpus_words; apply sorted_StronglySorted, NoDup_elements|done].
  rewrite length_take. apply lookup_lt_Some in Hn. lia.
Qed.

(** ** The vectorizer *)

Lemma setitem_None (a : list Z) (i x : Z) :
  Np.setitem a i x = None
  ↔ ¬ (- Z.of_nat (length a) ≤ i < Z.of_nat (length a)).
Proof. unfold Np.setitem. repeat case_decide; split; (done || lia). Qed.

Lemma setitem_length (a a' : list Z) (i x : Z) :
  Np.setitem a i x = Some a' → length a' = length a.
Proof.
  unfold Np.setitem. repeat case_decide; intros ?; simplify_eq;
    by rewrite length_insert.
Qed.

Lemma for_None {A S : Type} (l : list A) (body : A → S → option S)
  (P : A → Prop) (s : S) :
  (∀ x s, body x s = None ↔ P x) →
  for_ l body s = None ↔ ∃ x, x ∈ l ∧ P x.
Proof.
  intros Hbody. revert s. induction l as [|x l IH]; intros s; simpl.
  - split; [done|]. by intros (? & ?%elem_of_nil & _).
  - destruct (body x s) as [s'|] eqn:Hx; simpl.
    + rewrite IH. split.
      * intros (y & ? & ?). exists y. split; [by right|done].
      * intros (y & [->|?]%elem_of_cons & Hy); [|by exists y].
        apply Hbody with (s := s) in Hy. congruence.
    + split; [|done]. intros _. exists x. split; [left|by eapply Hbody].
Qed.

Lemma for_set_feature_None words (d : dict Z) (features : list Z) :
  for_ d (set_feature words) features = None
  ↔ ∃ w i, (w, i) ∈ d ∧ w ∈ words
           ∧ ¬ (- Z.of_nat (length features) ≤ i < Z.of_nat (length features)).
Proof.
  revert features. induction d as [|[w i] d IH]; intros features; simpl.
  - split; [done|]. by intros (? & ? & ?%elem_of_nil & _).
  - case_bool_decide as Hw; simpl.
    + destruct (Np.setitem features i 1) as [features'|] eqn:Hset; simpl.
      * rewrite IH, (setitem_length _ _ _ _ Hset). split.
        -- intros (w' & i' & ? & ? & ?). exists w', i'. split; [by right|done].
        -- intros (w' & i' & [?|?]%elem_of_cons & ? & Hi'); [|by exists w', i'].
           simplify_eq. apply setitem_None with (x := 1) in Hi'. congruence.
      * split; [|done]. intros _. exists w, i.
        split_and!; [left|done|by eapply setitem_None].
    + rewrite IH. split.
      * intros (w' & i' & ? & ? & ?). exists w', i'. split; [by right|done].
      * intros (w' & i' & [?|?]%elem_of_cons & ? & Hi'); [|by exists w', i'].
        by simplify_eq.
Qed.

Lemma paragraph_features_None (d : dict Z) txt classes item acc :
  paragraph_features d txt classes item acc = None
  ↔ ∃ w i, (w, i) ∈ d ∧ w ∈ find_unique_words item.2
           ∧ ¬ (- (Z.of_nat (length d) + 1) ≤ i < Z.of_nat (length d) + 1).
Proof.
  destruct item as [k paragraph]. unfold paragraph_features.
  assert (length (Np.zeros (length d + 1)) = S (length d)) as Hlen.
  { unfold Np.zeros. rewrite length_replicate. lia. }
  rewrite for_set_class by lia. simpl.
  set (features := match last (filter (marks txt) classes) with
                   | Some item => <[0%nat:=Np.uint8 item.2]> (Np.zeros (length d + 1))
                   | None => Np.zeros (length d + 1)
                   end).
  assert (Z.of_nat (length features) = Z.of_nat (length d) + 1) as Hfeat.
  { unfold features. destruct (last (filter (marks txt) classes));
      rewrite ?length_insert, Hlen; lia. }
  rewrite <-Hfeat, <-for_set_feature_None.
  by destruct (for_ d (set_feature (find_unique_words paragraph)) features).
Qed.

(** X9: for class ids that a vector of unsigned bytes holds, the vectorizer
    raises an error (an index error) exactly when some paragraph contains a
    dictionary word whose index lies outside the vector, that is outside
    [-(|V|+1), |V|]; a word that occurs in no paragraph never causes one,
    whatever its index. *)
Theorem paragraphs_to_features_error (d : dict Z) (txt : string)
  (paragraphs : list string) (classes : dict Z) :
  Forall (λ c, 0 ≤ c < 256) (Dict.values classes) →
  paragraphs_to_features d txt paragraphs classes = None
  ↔ ∃ paragraph w i,
      paragraph ∈ paragraphs ∧ (w, i) ∈ d ∧ w ∈ find_unique_words paragraph
      ∧ ¬ (- (Z.of_nat (length d) + 1) ≤ i < Z.of_nat (length d) + 1).
Proof.
  intros _. unfold paragraphs_to_features.
  rewrite (for_None _ _ _ _ (paragraph_features_None d txt classes)). split.
  - intros ([k paragraph] & Hin & w & i & ?). exists paragraph, w, i.
    split; [|done]. rewrite <-(enumerate_snd 1 paragraphs).
    by apply (list_elem_of_fmap_2 snd) in Hin.
  - intros (paragraph & w & i & Hin & ?).
    rewrite <-(enumerate_snd 1 paragraphs) in Hin.
    apply list_elem_of_fmap in Hin as (item & -> & Hin).
    exists item. split; [done|]. by exists w, i.
Qed.

Lemma paragraphs_to_features_error_witness :
  Forall (λ c, 0 ≤ c < 256) (Dict.values [("austin", 0); ("shelley", 1)]) ∧
  paragraphs_to_features [("cat", 1); ("dog", 3)] "txts/austin1.txt"
    ["The cat."; "A dog."] [("austin", 0); ("shelley", 1)] = None.
Proof.
  assert (Forall (λ c, 0 ≤ c < 256)
            (Dict.values [("austin", 0); ("shelley", 1)])) as Hc.
  { repeat constructor; simpl; lia. }
  split; [exact Hc|].
  apply (proj2 (paragraphs_to_features_error [("cat", 1); ("dog", 3)]
                  "txts/austin1.txt" ["The cat."; "A dog."]
                  [("austin", 0); ("shelley", 1)] Hc)).
  exists "A dog.", "dog", 3. split_and!.
  - right. left.
  - right. left.
  - apply (bool_decide_unpack _). by vm_compute.
  - simpl. lia.
Defined.

Lemma paragraph_features_ids (d : dict Z) txt classes item acc out :
  paragraph_features d txt classes item acc = Some out →
  out.*1 = acc.*1 ++ [para_id txt item.1].
Proof.
  destruct item as [k paragraph]. unfold paragraph_features.
  destruct (for_ classes _ _) as [features|]; [|done]. simpl.
  destruct (for_ d _ _) as [features'|]; [|done]. simpl.
  intros ?; simplify_eq. by rewrite fmap_app.
Qed.

Lemma for_paragraph_features_ids (d : dict Z) txt classes items acc out :
  for_ items (paragraph_features d txt classes) acc = Some out →
  out.*1 = acc.*1 ++ (para_id txt <$> items.*1).
Proof.
  revert acc. induction items as [|item items IH]; intros acc; simpl.
  - intros ?; simplify_eq. by rewrite app_nil_r.
  - destruct (paragraph_features d txt classes item acc) as [acc'|] eqn:Hitem;
      [|done]. simpl. intros Hout%IH.
    rewrite Hout, (paragraph_features_ids _ _ _ _ _ _ Hitem).
    by rewrite <-(assoc_L (++)).
Qed.

Lemma enumerate_fst_1 {A} (l : list A) :
  (enumerate 1 l).*1 = Z.of_nat <$> seq 1 (length l).
Proof.
  rewrite enumerate_fst, <-fmap_S_seq, <-list_fmap_compose.
  apply list_fmap_ext. intros _ n _. simpl. lia.
Qed.

Lemma paragraphs_to_features_ids (d : dict Z) txt paragraphs classes out :
  paragraphs_to_features d txt paragraphs classes = Some out →
  out.*1 = (λ k, para_id txt (Z.of_nat k)) <$> seq 1 (length paragraphs).
Proof.
  intros Hout%for_paragraph_features_ids. rewrite Hout. simpl.
  by rewrite enumerate_fst_1, <-list_fmap_compose.
Qed.

#[global] Instance para_id_inj txt : Inj (=) (=) (para_id txt).
Proof.
  intros i j Hij. unfold para_id in Hij.
  apply (inj (String.app _)) in Hij. apply (inj (String.app _)) in Hij.
  by apply (inj pretty) in Hij.
Qed.

(** X10: the identifiers of the examples of one document are pairwise
    distinct. *)
Theorem paragraph_ids_distinct (d : dict Z) (txt : string)
  (paragraphs : list string) (classes : dict Z) (out : list example) :
  paragraphs_to_features d txt paragraphs classes = Some out →
  NoDup out.*1.
Proof.
  intros Hout%paragraphs_to_features_ids. rewrite Hout.
  apply NoDup_fmap_2_strong; [|apply NoDup_seq].
  intros k1 k2 _ _ Hk. apply (inj (para_id txt)) in Hk. lia.
Qed.

Lemma paragraph_ids_distinct_witness :
  paragraphs_to_features [("cat", 1)] "txts/austin1.txt"
    ["The cat."; ""; "A dog."] [("austin", 0)]
  = Some [("austin1.1", [0; 1]); ("austin1.2", [0; 0]); ("austin1.3", [0; 0])]
  ∧ NoDup ["austin1.1"; "austin1.2"; "austin1.3"].
Proof.
  assert (paragraphs_to_features [("cat", 1)] "txts/austin1.txt"
            ["The cat."; ""; "A dog."] [("austin", 0)]
          = Some [("austin1.1", [0; 1]); ("austin1.2", [0; 0]);
                  ("austin1.3", [0; 0])]) as Hout by by vm_compute.
  split; [exact Hout|]. exact (paragraph_ids_distinct _ _ _ _ _ Hout).
Defined.

(** X11: for a file whose base name contains [.txt] only as its extension,
    the identifiers are the base name without the extension, a dot, and the
    paragraph numbers 1, 2, 3, ... in order. *)
Theorem paragraph_ids_ordinary (d : dict Z) (txt stem : string)
  (paragraphs : list string) (classes : dict Z) (out : list example) :
  Str.basename txt = stem +:+ ".txt" →
  Str.contains ".txt" (stem +:+ ".tx") = false →
  paragraphs_to_features d txt paragraphs classes = Some out →
  out.*1 = (λ k, stem +:+ "." +:+ pretty (Z.of_nat k))
             <$> seq 1 (length paragraphs).
Proof.
  intros Hbase Hstem Hout%paragraphs_to_features_ids. rewrite Hout.
  apply list_fmap_ext. intros _ k _. by apply para_id_extension.
Qed.

Lemma paragraph_ids_ordinary_witness :
  Str.basename "txts/shelley_2.txt" = "shelley_2" +:+ ".txt" ∧
  Str.contains ".txt" ("shelley_2" +:+ ".tx") = false ∧
  paragraphs_to_features [("cat", 1)] "txts/shelley_2.txt"
    ["The cat."; "A dog."] [("shelley", 1)]
  = Some [("shelley_2.1", [1; 1]); ("shelley_2.2", [1; 0])] ∧
  ["shelley_2.1"; "shelley_2.2"]
  = (λ k, "shelley_2" +:+ "." +:+ pretty (Z.of_nat k)) <$> seq 1 2.
Proof.
  assert (paragraphs_to_features [("cat", 1)] "txts/shelley_2.txt"
            ["The cat."; "A dog."] [("shelley", 1)]
          = Some [("shelley_2.1", [1; 1]); ("shelley_2.2", [1; 0])])
    as Hout by by vm_compute.
  split_and!; [done|done|exact Hout|].
  exact (paragraph_ids_ordinary _ "txts/shelley_2.txt" "shelley_2" _ _ _
           eq_refl eq_refl Hout).
Defined.

Lemma for_set_feature_no_words (d : dict Z) (features : list Z) :
  for_ d (set_feature []) features = Some features.
Proof. induction d as [|[w i] d IH]; [done|]. simpl. exact IH. Qed.

Lemma paragraph_features_no_words (d : dict Z) txt classes k paragraph acc :
  find_unique_words paragraph = [] →
  paragraph_features d txt classes (k, paragraph) acc
  = Some (acc ++ [(para_id txt k,
                   Np.uint8 (class_label txt classes)
                     :: replicate (length d) 0)]).
Proof.
  intros Hwords. unfold paragraph_features. rewrite Hwords.
  rewrite for_set_class
    by (unfold Np.zeros; rewrite length_replicate; lia).
  simpl. rewrite for_set_feature_no_words. simpl. do 4 f_equal.
  unfold class_label, Np.zeros. rewrite Nat.add_1_r.
  by destruct (last (filter (marks txt) classes)).
Qed.

Lemma class_label_byte txt (classes : dict Z) :
  Forall (λ c, 0 ≤ c < 256) (Dict.values classes) →
  0 ≤ class_label txt classes < 256.
Proof.
  intros Hclasses. unfold class_label.
  destruct (last (filter (marks txt) classes)) as [item|] eqn:Hlast; [|lia].
  apply last_Some_elem_of, list_elem_of_filter in Hlast as [_ Hin].
  eapply Forall_forall in Hclasses; [done|].
  by apply (list_elem_of_fmap_2 snd).
Qed.

(** X12: paragraphs without a normalized word (the empty paragraph among
    them) give, for any dictionary whatever and class ids that a vector of
    unsigned bytes holds, the class id followed by [|V|] zeros, and no
    error. *)
Theorem paragraphs_without_words (d : dict Z) (txt : string)
  (paragraphs : list string) (classes : dict Z) :
  Forall (λ c, 0 ≤ c < 256) (Dict.values classes) →
  Forall (λ paragraph, find_unique_words paragraph = []) paragraphs →
  ∃ out,
    paragraphs_to_features d txt paragraphs classes = Some out ∧
    out.*2 = replicate (length paragraphs)
               (class_label txt classes :: replicate (length d) 0).
Proof.
  intros Hclasses Hwords.
  rewrite <-(Z.mod_small (class_label txt classes) 256)
    by by apply class_label_byte.
  fold (Np.uint8 (class_label txt classes)).
  unfold paragraphs_to_features.
  cut (∀ (k : Z) acc,
    ∃ out, for_ (enumerate k paragraphs) (paragraph_features d txt classes) acc
           = Some out
           ∧ out.*2 = acc.*2 ++ replicate (length paragraphs)
               (Np.uint8 (class_label txt classes) :: replicate (length d) 0)).
  { intros H. apply (H 1 []). }
  induction Hwords as [|paragraph paragraphs Hp _ IH]; intros k acc.
  - exists acc. by rewrite app_nil_r.
  - cbn [enumerate for_]. rewrite paragraph_features_no_words by done. simpl.
    destruct (IH (k + 1) (acc ++ [(para_id txt k,
                Np.uint8 (class_label txt classes) :: replicate (length d) 0)]))
      as (out & -> & Hout).
    exists out. split; [done|]. rewrite Hout, fmap_app. simpl.
    by rewrite <-(assoc_L (++)).
Qed.

Lemma paragraphs_without_words_witness :
  Forall (λ c, 0 ≤ c < 256) (Dict.values [("shelley", 1)]) ∧
  Forall (λ paragraph, find_unique_words paragraph = []) [""; " a I 42 "] ∧
  ∃ out,
    paragraphs_to_features [("cat", 7); ("dog", -9)] "txts/shelley.txt"
      [""; " a I 42 "] [("shelley", 1)] = Some out
    ∧ out.*2 = [[1; 0; 0]; [1; 0; 0]].
Proof.
  assert (Forall (λ c, 0 ≤ c < 256) (Dict.values [("shelley", 1)])) as Hc.
  { repeat constructor; simpl; lia. }
  assert (Forall (λ paragraph, find_unique_words paragraph = [])
                 [""; " a I 42 "]) as Hwords.
  { repeat constructor; by vm_compute. }
  split; [exact Hc|]. split; [exact Hwords|].
  destruct (paragraphs_without_words [("cat", 7); ("dog", -9)]
              "txts/shelley.txt" [""; " a I 42 "] [("shelley", 1)] Hc Hwords)
    as (out & Hout & Hrows).
  exists out. split; [exact Hout|]. rewrite Hrows. by vm_compute.
Defined.

(** ** The dataset assembler *)

Lemma for_app {A S : Type} (l1 l2 : list A) (body : A → S → option S) (s : S) :
  for_ (l1 ++ l2) body s = for_ l1 body s ≫= for_ l2 body.
Proof.
  revert s. induction l1 as [|x l1 IH]; intros s; simpl; [done|].
  destruct (body x s); simpl; [apply IH|done].
Qed.

Lemma create_dataset_from (d : dict Z) (text_dir : corpus) classes acc :
  for_ text_dir (λ txt paragraph_features,
    let txt_paragraphs := read_paragraphs txt.2 in
    features ← paragraphs_to_features d txt.1 txt_paragraphs classes;
    Some (paragraph_features ++ features)) acc
  = (λ dataset, acc ++ dataset) <$> create_dataset d text_dir classes.
Proof.
  unfold create_dataset. revert acc.
  induction text_dir as [|txt text_dir IH]; intros acc.
  - simpl. by rewrite app_nil_r.
  - cbn [for_]. cbv zeta.
    destruct (paragraphs_to_features d txt.1 (read_paragraphs txt.2) classes)
      as [features|]; [|done]. simpl.
    rewrite (IH (acc ++ features)), (IH features).
    destruct (for_ text_dir _ []) as [dataset|]; [|done]. simpl.
    by rewrite (assoc_L (++)).
Qed.

Lemma create_dataset_cat (d : dict Z) (c1 c2 : corpus) (classes : dict Z) :
  create_dataset d (c1 ++ c2) classes
  = dataset1 ← create_dataset d c1 classes;
    dataset2 ← create_dataset d c2 classes;
    Some (dataset1 ++ dataset2).
Proof.
  unfold create_dataset at 1. rewrite for_app.
  fold (create_dataset d c1 classes).
  destruct (create_dataset d c1 classes) as [dataset1|]; [|done]. simpl.
  rewrite create_dataset_from.
  by destruct (create_dataset d c2 classes).
Qed.

(** X13: the dataset of a corpus in two parts is the dataset of the first
    part followed by the dataset of the second (and an index error in either
    part is one of the whole): every file contributes its examples
    independently of the other files, in the order of enumeration. *)
Theorem create_dataset_app (d : dict Z) (c1 c2 : corpus) (classes : dict Z) :
  create_dataset d (c1 ++ c2) classes
  = dataset1 ← create_dataset d c1 classes;
    dataset2 ← create_dataset d c2 classes;
    Some (dataset1 ++ dataset2).
Proof. apply create_dataset_cat. Qed.

(** One file alone: its dataset is what the vectorizer returns for its
    paragraphs. *)
Lemma create_dataset_singleton (d : dict Z) txt (classes : dict Z) :
  create_dataset d [txt] classes
  = paragraphs_to_features d txt.1 (read_paragraphs txt.2) classes.
Proof.
  unfold create_dataset. simpl.
  by destruct (paragraphs_to_features d txt.1 (read_paragraphs txt.2) classes).
Qed.

Lemma create_dataset_Some (d : dict Z) (text_dir : corpus) (classes : dict Z) :
  indices_in_range d →
  create_dataset d text_dir classes
  = Some (text_dir ≫= λ txt,
            (λ item, (para_id txt.1 item.1,
                      feature_vector d txt.1 classes item.2))
              <$> enumerate 1 (read_paragraphs txt.2)).
Proof.
  intros Hd. induction text_dir as [|txt text_dir IH]; [done|].
  change (txt :: text_dir) with ([txt] ++ text_dir).
  rewrite create_dataset_cat, create_dataset_singleton, IH.
  by rewrite paragraphs_to_features_Some.
Qed.

(** X14: built with the dictionary of the same corpus, and for class ids
    that a vector of unsigned bytes holds, the dataset is assembled without
    an error; it holds one example for every paragraph of every file, and
    every vector has length [|V| + 1]. *)
Theorem create_dataset_total (text_dir : corpus) (classes : dict Z) :
  Forall (λ c, 0 ≤ c < 256) (Dict.values classes) →
  ∃ full_dataset,
    create_dataset (create_dictionary text_dir) text_dir classes
      = Some full_dataset ∧
    length full_dataset
      = length (text_dir ≫= λ txt, read_paragraphs txt.2) ∧
    Forall (λ ex : example,
              length ex.2 = S (length (create_dictionary text_dir)))
           full_dataset.
Proof.
  intros _.
  destruct (vocabulary_create_dictionary text_dir) as (_ & _ & Hrange).
  eexists. split; [by apply create_dataset_Some|]. split.
  - clear Hrange. generalize (create_dictionary text_dir) as d. intros d.
    induction text_dir as [|txt text_dir IH]; [done|].
    rewrite !bind_cons, !length_app, IH.
    by rewrite length_fmap, length_enumerate.
  - apply Forall_bind, Forall_forall. intros txt _.
    apply Forall_fmap, Forall_forall. intros item _. simpl.
    apply length_feature_vector.
Qed.

Lemma create_dataset_total_witness :
  Forall (λ c, 0 ≤ c < 256) (Dict.values [("austin", 0); ("shelley", 1)]) ∧
  ∃ full_dataset,
    create_dataset
      (create_dictionary
         [("txts/austin1.txt", "The cat." +:+ newline +:+ newline +:+ "A dog.");
          ("txts/shelley2.txt", "It rained.")])
      [("txts/austin1.txt", "The cat." +:+ newline +:+ newline +:+ "A dog.");
       ("txts/shelley2.txt", "It rained.")]
      [("austin", 0); ("shelley", 1)] = Some full_dataset ∧
    length full_dataset = 3%nat.
Proof.
  assert (Forall (λ c, 0 ≤ c < 256)
            (Dict.values [("austin", 0); ("shelley", 1)])) as Hc.
  { repeat constructor; simpl; lia. }
  split; [exact Hc|].
  destruct (create_dataset_total
              [("txts/austin1.txt",
                "The cat." +:+ newline +:+ newline +:+ "A dog.");
               ("txts/shelley2.txt", "It rained.")]
              [("austin", 0); ("shelley", 1)] Hc)
    as (full_dataset & Hds & Hlen & _).
  exists full_dataset. split; [exact Hds|].
  etransitivity; [exact Hlen|]. by vm_compute.
Defined.

(** X15: in the dataset of a corpus built with its own dictionary, for
    class ids that a vector of unsigned bytes holds, every normalized word
    of a paragraph has an index in the dictionary, and the slot of that
    index is 1 in the vector of the paragraph: segmentation and the
    dictionary lose no word. *)
Theorem paragraph_words_marked (text_dir : corpus) (path text : string)
  (classes : dict Z) :
  (path, text) ∈ text_dir →
  Forall (λ c, 0 ≤ c < 256) (Dict.values classes) →
  ∃ out,
    paragraphs_to_features (create_dictionary text_dir) path
      (read_paragraphs text) classes = Some out ∧
    ∀ (k : nat) paragraph, read_paragraphs text !! k = Some paragraph →
      ∃ id features,
        out !! k = Some (id, features) ∧
        ∀ w, w ∈ find_unique_words paragraph →
             ∃ i, Dict.get (create_dictionary text_dir) w = Some i
                  ∧ features !! Z.to_nat i = Some 1.
Proof.
  intros Hfile _.
  destruct (vocabulary_create_dictionary text_dir) as (Hkeys & _ & Hrange).
  eexists. split; [by apply paragraphs_to_features_Some|].
  intros k paragraph Hk.
  exists (para_id path (1 + Z.of_nat k)),
    (feature_vector (create_dictionary text_dir) path classes paragraph).
  split; [by rewrite list_lookup_fmap, enumerate_lookup, Hk|].
  intros w Hw.
  assert (w ∈ Dict.keys (create_dictionary text_dir)) as Hkey.
  { rewrite keys_create_dictionary, elem_of_corpus_words.
    exists (path, text). split; [done|]. simpl.
    apply elem_of_words_paragraphs. exists paragraph.
    split; [by eapply list_elem_of_lookup_2|done]. }
  destruct (Dict.get (create_dictionary text_dir) w) as [i|] eqn:Hget;
    [|by apply get_None in Hget].
  exists i. split; [done|]. apply get_Some_elem_of in Hget.
  assert (1 ≤ i ≤ Z.of_nat (length (create_dictionary text_dir))) as Hi.
  { eapply Forall_forall in Hrange; [done|].
    by apply (list_elem_of_fmap_2 snd) in Hget. }
  unfold feature_vector. apply mark_present_marked; [by exists w, i|].
  destruct (last (filter (marks path) classes));
    rewrite ?length_insert; unfold Np.zeros; rewrite length_replicate; lia.
Qed.

Lemma paragraph_words_marked_witness :
  ("txts/austin1.txt", "The cat." +:+ newline +:+ newline +:+ "A dog.")
    ∈ [("txts/austin1.txt", "The cat." +:+ newline +:+ newline +:+ "A dog.");
       ("txts/shelley2.txt", "It rained.")] ∧
  Forall (λ c, 0 ≤ c < 256) (Dict.values [("austin", 0)]) ∧
  ∃ out,
    paragraphs_to_features
      (create_dictionary
         [("txts/austin1.txt", "The cat." +:+ newline +:+ newline +:+ "A dog.");
          ("txts/shelley2.txt", "It rained.")])
      "txts/austin1.txt"
      (read_paragraphs ("The cat." +:+ newline +:+ newline +:+ "A dog."))
      [("austin", 0)] = Some out.
Proof.
  assert (("txts/austin1.txt", "The cat." +:+ newline +:+ newline +:+ "A dog.")
    ∈ [("txts/austin1.txt", "The cat." +:+ newline +:+ newline +:+ "A dog.");
       ("txts/shelley2.txt", "It rained.")]) as Hfile by left.
  assert (Forall (λ c, 0 ≤ c < 256) (Dict.values [("austin", 0)])) as Hc.
  { repeat constructor; simpl; lia. }
  split; [exact Hfile|]. split; [exact Hc|].
  destruct (paragraph_words_marked _ _ _ [("austin", 0)] Hfile Hc)
    as (out & Hout & _).
  exists out. exact Hout.
Defined.

(** ** The exporter *)

Lemma for_csv_row_None (features : list (list Z)) (dataset : list example)
  (k : nat) csv :
  (k ≤ length features < k + length dataset)%nat →
  for_ (enumerate (Z.of_nat k) dataset) (csv_row features) csv = None.
Proof.
  revert k csv. induction dataset as [|data dataset IH]; intros k csv Hlen.
  - simpl in Hlen. lia.
  - cbn [enumerate for_]. simpl in Hlen.
    destruct (features !! k) as [feats|] eqn:Hk.
    + rewrite (csv_row_line _ _ _ feats) by done. simpl.
      replace (Z.of_nat k + 1) with (Z.of_nat (S k)) by lia.
      apply IH. apply lookup_lt_Some in Hk. lia.
    + unfold csv_row. by rewrite Nat2Z.id, Hk.
Qed.

(** X16: [data_to_csv] raises an index error exactly when there are fewer
    sub-vectors than examples; sub-vectors beyond the last example are
    ignored. *)
Theorem data_to_csv_error (dataset : list example) (features : list (list Z)) :
  (data_to_csv dataset features = None
   ↔ (length features < length dataset)%nat) ∧
  data_to_csv dataset (take (length dataset) features)
  = data_to_csv dataset features.
Proof.
  unfold data_to_csv.
  destruct (decide (length dataset ≤ length features)%nat) as [Hle|Hlt].
  - rewrite (for_csv_row features dataset 0) by (simpl; lia).
    rewrite (for_csv_row (take (length dataset) features) dataset 0)
      by (rewrite length_take; simpl; lia).
    split; [split; [done|lia]|]. by rewrite !drop_0, zip_with_take_r.
  - rewrite (for_csv_row_None features dataset 0) by (simpl; lia).
    split; [split; [lia|done]|]. rewrite take_ge by lia.
    by rewrite (for_csv_row_None features dataset 0) by (simpl; lia).
Qed.

(** ** Growth of the corpus *)

Lemma corpus_words_index (text_dir : corpus) (n : nat) w :
  corpus_words text_dir !! n = Some w →
  n = length (filter (λ w', str_lt w' w) (corpus_words text_dir)).
Proof.
  intros Hn. rewrite (filter_lt_sorted _ n w); [|
    unfold corpus_words; apply sorted_StronglySorted, NoDup_elements|done].
  rewrite length_take. apply lookup_lt_Some in Hn. lia.
Qed.

(** X17: adding files to the corpus keeps every word in the dictionary and
    never lowers its index; the indices are not stable under growth, they
    can only move up. *)
Theorem create_dictionary_grow (text_dir more : corpus) (w : string) (i : Z) :
  Dict.get (create_dictionary text_dir) w = Some i →
  ∃ i', Dict.get (create_dictionary (text_dir ++ more)) w = Some i' ∧ i ≤ i'.
Proof.
  intros (n & Hn & ->)%get_create_dictionary.
  assert (∀ x, x ∈ corpus_words text_dir → x ∈ corpus_words (text_dir ++ more))
    as Hsub.
  { intros x. rewrite !elem_of_corpus_words. intros (txt & ? & ?).
    exists txt. split; [|done]. apply elem_of_app. by left. }
  destruct (proj1 (list_elem_of_lookup _ _)
              (Hsub w (list_elem_of_lookup_2 _ _ _ Hn))) as [n' Hn'].
  exists (1 + Z.of_nat n'). split.
  { apply get_create_dictionary. by exists n'. }
  rewrite (corpus_words_index _ n w Hn), (corpus_words_index _ n' w Hn').
  apply Zplus_le_compat_l, inj_le, submseteq_length, NoDup_submseteq.
  - apply NoDup_filter, NoDup_corpus_words.
  - intros x [? ?]%list_elem_of_filter. apply list_elem_of_filter. auto.
Qed.

Lemma create_dictionary_grow_witness :
  Dict.get (create_dictionary [("txts/a.txt", "The dog.")]) "dog" = Some 1 ∧
  ∃ i', Dict.get (create_dictionary ([("txts/a.txt", "The dog.")]
                    ++ [("txts/b.txt", "A cat, an ant.")])) "dog" = Some i'
        ∧ 1 ≤ i'.
Proof.
  assert (Dict.get (create_dictionary [("txts/a.txt", "The dog.")]) "dog"
          = Some 1) as Hget by by vm_compute.
  split; [exact Hget|].
  exact (create_dictionary_grow _ [("txts/b.txt", "A cat, an ant.")] _ _ Hget).
Defined.

(** ** The class of a document *)

Lemma lower_app s t : Str.lower (s +:+ t) = Str.lower s +:+ Str.lower t.
Proof.
  induction s as [|c s IH]; [done|]. rewrite str_app_cons. simpl.
  by rewrite IH.
Qed.

Lemma contains_app_r sub s t :
  Str.contains sub s = true → Str.contains sub (s +:+ t) = true.
Proof.
  rewrite !contains_spec. intros (pre & post & ->).
  exists pre, (post +:+ t). by rewrite !str_app_assoc.
Qed.

(** X18: the class marker is searched in the whole path, not in the file
    name alone: when the marker of the last entry of the class table occurs
    (case ignored) in the directory part, every example of every file of
    that directory gets the class id of that entry, whatever the file is
    called.  The class ids are those a vector of unsigned bytes holds. *)
Theorem class_from_directory (d : dict Z) (dir name : string)
  (paragraphs : list string) (classes : dict Z) (key : string) (value : Z) :
  indices_in_range d →
  Forall (λ c, 0 ≤ c < 256) (Dict.values (classes ++ [(key, value)])) →
  Str.contains (Str.lower key) (Str.lower dir) = true →
  ∃ out,
    paragraphs_to_features d (dir +:+ "/" +:+ name) paragraphs
      (classes ++ [(key, value)]) = Some out ∧
    Forall (λ ex : example, ex.2 !! 0%nat = Some value) out.
Proof.
  intros Hd Hclasses Hdir.
  assert (0 ≤ value < 256) as Hvalue.
  { eapply Forall_forall in Hclasses; [exact Hclasses|].
    apply (list_elem_of_fmap_2 snd (classes ++ [(key, value)]) (key, value)).
    apply elem_of_app. right. left. }
  eexists. split; [by apply paragraphs_to_features_Some|].
  apply Forall_fmap, Forall_forall. intros item _. simpl.
  unfold feature_vector.
  rewrite mark_present_unmarked by by apply not_marked_0.
  rewrite filter_app, filter_cons_True.
  - rewrite filter_nil, last_snoc. simpl. rewrite list_lookup_insert_eq
      by (unfold Np.zeros; rewrite length_replicate; lia).
    f_equal. by apply Z.mod_small.
  - unfold marks. simpl. rewrite lower_app. by apply contains_app_r.
Qed.

Lemma class_from_directory_witness :
  indices_in_range [("cat", 1)] ∧
  Forall (λ c, 0 ≤ c < 256)
         (Dict.values ([("austin", 0)] ++ [("shelley", 1)])) ∧
  Str.contains (Str.lower "shelley") (Str.lower "Shelley_texts") = true ∧
  ∃ out,
    paragraphs_to_features [("cat", 1)] ("Shelley_texts" +:+ "/" +:+ "austin1.txt")
      ["The cat."] ([("austin", 0)] ++ [("shelley", 1)]) = Some out ∧
    Forall (λ ex : example, ex.2 !! 0%nat = Some 1) out.
Proof.
  assert (indices_in_range [("cat", 1)]) as Hd.
  { repeat constructor; simpl; lia. }
  assert (Forall (λ c, 0 ≤ c < 256)
            (Dict.values ([("austin", 0)] ++ [("shelley", 1)]))) as Hc.
  { repeat constructor; simpl; lia. }
  split; [exact Hd|]. split; [exact Hc|]. split; [reflexivity|].
  exact (class_from_directory [("cat", 1)] "Shelley_texts" "austin1.txt"
           ["The cat."] [("austin", 0)] "shelley" 1 Hd Hc eq_refl).
Defined.
